(** * The root multi-store of store/rootmultistore.go

    A shallow embedding of [rootMultiStore] and of the commitment records
    it persists ([CommitID], [StoreInfo], [CommitInfo]), followed by the
    properties of loading, committing, hashing, proving and querying.

    Conventions of the embedding.
    - Go's [int64] is a [Z] with the wrap-around of [+] written out
      ([wrap64]).
    - [[]byte] is [list byte]; the nil slice and the empty slice are both [[]].
    - A Go function that may panic returns in the monad [M]; a Go
      [(T, error)] result is a value of [res T]; a lone [error] is an
      [option string] ([None] is Go's nil).
    - The backing database and the maps keyed by strings are [gmap]s.
      The two maps keyed by [StoreKey] that the code ranges over
      ([storesParams] and [stores]) are association lists without
      duplicate keys: [range] visits the entries in list order, so a
      statement quantified over all such lists covers every order Go may
      choose.
    - Collaborators outside this file (codec, hashing, Merkle proofs,
      upgrade switches, commit policy, the substores themselves) are
      interfaces: type classes whose laws, where a property needs them, are
      stated as separate classes.
    - The trace writer and trace context of the multi-store, its pruning
      setter and its cache wrappers take no part in the properties below and
      are left out. *)

From Stdlib Require Import ZArith Ascii String.
From Stdlib Require Import Strings.Byte.
From Stdlib Require DecimalString DecimalZ.
From stdpp Require Import list gmap strings.

Local Open Scope string_scope.
Local Open Scope list_scope.
Local Open Scope Z_scope.

(** ** Results, errors and panics *)

Abbreviation bytes := (list byte).

#[global] Instance byte_eq_dec : EqDecision byte := Byte.byte_eq_dec.

(** Go's [[]byte(s)]. *)
Definition bytes_of_string (s : string) : bytes := list_byte_of_string s.

Inductive M (A : Type) : Type :=
  | Ret (a : A)
  | Panic (msg : string).
Arguments Ret {A} a.
Arguments Panic {A} msg.

#[global] Instance M_ret : MRet M := fun _ a => Ret a.
#[global] Instance M_bind : MBind M := fun _ _ f m =>
  match m with
  | Ret a => f a
  | Panic msg => Panic msg
  end.

Inductive res (A : Type) : Type :=
  | OK (a : A)
  | Error (msg : string).
Arguments OK {A} a.
Arguments Error {A} msg.

Definition error := option string.

Definition panics {A} (m : M A) : Prop := ∃ msg, m = Panic msg.

(** ** int64 *)

Definition wrap64 (z : Z) : Z := (z + 2 ^ 63) mod 2 ^ 64 - 2 ^ 63.
Definition int64_add (a b : Z) : Z := wrap64 (a + b).
Definition int64_sub (a b : Z) : Z := wrap64 (a - b).
Definition MaxInt64 : Z := 2 ^ 63 - 1.
Definition MinInt64 : Z := - 2 ^ 63.

(** ** Store keys and store types *)

(** Modelled from the spec: the [StoreKey] interface and its two concrete
    pointer types are declared in types/store.go. A key is an opaque
    identity (the address) carrying a name; equality is by identity. *)
Inductive StoreKey : Type :=
  | KVStoreKey (addr : positive) (name : string)
  | TransientStoreKey (addr : positive) (name : string).

Definition Name (k : StoreKey) : string :=
  match k with
  | KVStoreKey _ n => n
  | TransientStoreKey _ n => n
  end.

(** The type assertion of [key] to a pointer to [sdk.TransientStoreKey]. *)
Definition isTransientStoreKey (k : StoreKey) : bool :=
  match k with
  | TransientStoreKey _ _ => true
  | KVStoreKey _ _ => false
  end.

Definition StoreKey_String (k : StoreKey) : string :=
  match k with
  | KVStoreKey _ n => "KVStoreKey{" +:+ n +:+ "}"
  | TransientStoreKey _ n => "TransientStoreKey{" +:+ n +:+ "}"
  end.

#[global] Instance StoreKey_eq_dec : EqDecision StoreKey.
Proof. solve_decision. Defined.

#[global] Instance StoreKey_countable : Countable StoreKey.
Proof.
  refine (inj_countable'
    (fun k => match k with
              | KVStoreKey a n => (false, a, n)
              | TransientStoreKey a n => (true, a, n)
              end)
    (fun t => match t with
              | (false, a, n) => KVStoreKey a n
              | (true, a, n) => TransientStoreKey a n
              end) _).
  by intros [].
Defined.

(** Modelled from the spec: [sdk.StoreType] is an integer type with four
    named values; [StoreTypeOther] stands for the integers without a name,
    which reach the [default] branch of the instantiation switch. *)
Inductive StoreType : Type :=
  | StoreTypeMulti
  | StoreTypeDB
  | StoreTypeIAVL
  | StoreTypeTransient
  | StoreTypeOther (n : Z).

#[global] Instance StoreType_eq_dec : EqDecision StoreType.
Proof. solve_decision. Defined.

Definition PruningStrategy := N.

(** ** Commitment records *)

Record CommitID : Type := mkCommitID {
  Version : Z;
  Hash : bytes;
}.

(** [CommitID{}] *)
Definition zeroCommitID : CommitID := mkCommitID 0 [].

Record StoreCore : Type := mkStoreCore {
  Core_CommitID : CommitID;
}.

Record StoreInfo : Type := mkStoreInfo {
  SI_Name : string;
  Core : StoreCore;
}.

Record CommitInfo : Type := mkCommitInfo {
  CI_Version : Z;
  StoreInfos : list StoreInfo;
}.

#[global] Instance CommitID_eq_dec : EqDecision CommitID.
Proof. solve_decision. Defined.
#[global] Instance StoreCore_eq_dec : EqDecision StoreCore.
Proof. solve_decision. Defined.
#[global] Instance StoreInfo_eq_dec : EqDecision StoreInfo.
Proof. solve_decision. Defined.
#[global] Instance CommitInfo_eq_dec : EqDecision CommitInfo.
Proof. solve_decision. Defined.

(** ** The database *)

Abbreviation DB := (gmap string bytes).

(** [dbm.NewPrefixDB(db, prefix)]: a view of [db] under [prefix]. *)
Record PrefixDB : Type := NewPrefixDB {
  pdb_db : DB;
  pdb_prefix : bytes;
}.

(** A batch is the list of its pending [Set]s, oldest first;
    [batch.Write()] applies them in that order. *)
Definition Batch := list (string * bytes).

Definition Batch_Set (b : Batch) (k : string) (v : bytes) : Batch := b ++ [(k, v)].

Definition Batch_Write (b : Batch) (d : DB) : DB :=
  foldl (fun acc kv => <[kv.1 := kv.2]> acc) d b.

(** ** Queries *)

Inductive Upgrade : Type :=
  | BEP171
  | BEP173
  | BCFusionFirstHardFork
  | BCFusionSecondHardFork.

(** Modelled from the spec: the failure vocabulary of types/errors.go that
    this file uses. *)
Inductive CodeType : Type :=
  | CodeInternal
  | CodeUnknownRequest.

Record sdkError : Type := mkError {
  err_code : CodeType;
  err_msg : string;
}.

Definition ErrUnknownRequest (msg : string) : sdkError := mkError CodeUnknownRequest msg.
Definition ErrInternal (msg : string) : sdkError := mkError CodeInternal msg.

Record RequestQuery : Type := mkRequestQuery {
  req_Data : bytes;
  req_Path : string;
  req_Height : Z;
  req_Prove : bool;
}.

(** ** Collaborators *)

(** tendermint's crypto/merkle and crypto/tmhash. *)
Class Merkle : Type := {
  SimpleProof : Type;
  tmhash_Sum : bytes → bytes;
  SimpleHashFromMap : gmap string bytes → bytes;
  SimpleProofsFromMap :
    gmap string bytes → bytes * gmap string SimpleProof * list string;
  ComputeRootHash : SimpleProof → bytes;
}.

(** The contract of the Merkle library: the proofs derived from a map are
    keyed by the map's keys and each of them leads to the map's root. *)
Class MerkleLaws `{Merkle} : Prop := {
  proofs_keys : ∀ (m : gmap string bytes) (k : string),
    is_Some ((SimpleProofsFromMap m).1.2 !! k) ↔ is_Some (m !! k);
  proofs_root : ∀ (m : gmap string bytes) (k : string) (p : SimpleProof),
    (SimpleProofsFromMap m).1.2 !! k = Some p →
    ComputeRootHash p = SimpleHashFromMap m;
}.

(** The amino codec [cdc], at the three types this file serialises. *)
Class Codec : Type := {
  MarshalCommitInfo : CommitInfo → res bytes;
  UnmarshalCommitInfo : bytes → res CommitInfo;
  MarshalInt64 : Z → bytes;
  UnmarshalInt64 : bytes → res Z;
  MarshalStoreCore : StoreCore → bytes;
}.

Class CodecLaws `{Codec} : Prop := {
  CommitInfo_round_trip : ∀ ci bz,
    MarshalCommitInfo ci = OK bz → UnmarshalCommitInfo bz = OK ci;
  Int64_round_trip : ∀ v, UnmarshalInt64 (MarshalInt64 v) = OK v;
}.

(** The switches and policies of package sdk. *)
Class Protocol : Type := {
  IsUpgrade : Upgrade → bool;
  ShouldCommitStore : string → bool;
  ShouldSetStoreVersion : string → bool;
  RequireProof : string → bool;
  ABCICode : sdkError → N;
  ABCILog : sdkError → string;
}.

Section Proofs.
Context `{Merkle}.

(** Modelled from the spec: the existence proof of store/proofs, "an
    exists proof carrying the leaf value, the computed root, and the
    inclusion path". *)
Record ExistenceProof : Type := mkExistenceProof {
  ep_Key : bytes;
  ep_Value : bytes;
  ep_Root : bytes;
  ep_Path : SimpleProof;
}.

(** Modelled from the spec: [sdkproofs.ConvertExistenceProof] of
    store/proofs, which converts a simple Merkle proof for [key] with leaf
    [value] into an existence proof. *)
Definition ConvertExistenceProof (p : SimpleProof) (key value : bytes)
  : res ExistenceProof :=
  OK (mkExistenceProof key value (ComputeRootHash p) p).

Inductive CommitmentProof : Type :=
  | CommitmentProof_Exist (Exist : ExistenceProof).

(** Modelled from the spec: [NewMultiStoreProof] of store/multistoreproof.go
    keeps the store infos of the version. *)
Record MultiStoreProof : Type := NewMultiStoreProof {
  msp_StoreInfos : list StoreInfo;
}.

(** A proof operation: one produced by a substore, or one of the two
    aggregation encodings this file appends. *)
Inductive ProofOp : Type :=
  | SubstoreProofOp (type : string) (key data : bytes)
  | SimpleMerkleCommitmentOp (key : bytes) (proof : CommitmentProof)
  | MultiStoreProofOp (key : bytes) (proof : MultiStoreProof).

Record ResponseQuery : Type := mkResponseQuery {
  res_Code : N;
  res_Log : string;
  res_Info : string;
  res_Index : Z;
  res_Key : bytes;
  res_Value : bytes;
  res_Proof : option (list ProofOp);
  res_Height : Z;
}.

Definition set_Proof (r : ResponseQuery) (p : option (list ProofOp)) : ResponseQuery :=
  mkResponseQuery (res_Code r) (res_Log r) (res_Info r) (res_Index r)
    (res_Key r) (res_Value r) p (res_Height r).

(** [sdk.Error.QueryResult()] *)
Definition QueryResult `{Protocol} (e : sdkError) : ResponseQuery :=
  mkResponseQuery (ABCICode e) (ABCILog e) "" 0 [] [] None 0.
End Proofs.

(** The [CommitStore] interface, the optional [Queryable] interface of a
    store, and the constructors of the two store types that can be mounted. *)
Class CommitStoreOps `{Merkle} (S : Type) : Type := {
  store_Commit : S → M (CommitID * S);
  store_SetVersion : Z → S → S;
  store_SetPruning : PruningStrategy → S → S;
  store_GetStoreType : S → StoreType;
  store_Queryable : S → option (RequestQuery → M ResponseQuery);
  LoadIAVLStore : PrefixDB → CommitID → PruningStrategy → res S;
  newTransientStore : S;
}.

(** ** Go maps that are ranged over *)

Section GoMap.
Context {K V : Type} `{EqDecision K}.

(** [m[k]] *)
Fixpoint mapGet (k : K) (m : list (K * V)) : option V :=
  match m with
  | [] => None
  | (k', v) :: m' => if decide (k = k') then Some v else mapGet k m'
  end.

(** [m[k] = v] *)
Fixpoint mapSet (k : K) (v : V) (m : list (K * V)) : list (K * V) :=
  match m with
  | [] => [(k, v)]
  | (k', v') :: m' =>
      if decide (k = k') then (k, v) :: m' else (k', v') :: mapSet k v m'
  end.
End GoMap.

(** ** The store *)

Definition latestVersionKey : string := "s/latest".

(** [fmt.Sprintf(commitInfoKeyFmt, ver)], with [commitInfoKeyFmt = "s/%d"]. *)
Definition commitInfoKey (ver : Z) : string :=
  "s/" +:+ DecimalString.NilEmpty.string_of_int (Z.to_int ver).

Record storeParams : Type := mkStoreParams {
  sp_key : StoreKey;
  sp_db : option DB;
  sp_typ : StoreType;
}.

Section RootMultiStore.
Context `{Merkle} `{Codec} `{Protocol} {S : Type} `{!CommitStoreOps S}.

Record rootMultiStore : Type := mkRootMultiStore {
  db : DB;
  lastCommitID : CommitID;
  pruning : PruningStrategy;
  storesParams : list (StoreKey * storeParams);
  stores : list (StoreKey * S);
  keysByName : gmap string StoreKey;
}.

Definition set_db (rs : rootMultiStore) (d : DB) : rootMultiStore :=
  mkRootMultiStore d (lastCommitID rs) (pruning rs) (storesParams rs)
    (stores rs) (keysByName rs).
Definition set_lastCommitID (rs : rootMultiStore) (id : CommitID) : rootMultiStore :=
  mkRootMultiStore (db rs) id (pruning rs) (storesParams rs)
    (stores rs) (keysByName rs).
Definition set_stores (rs : rootMultiStore) (st : list (StoreKey * S)) : rootMultiStore :=
  mkRootMultiStore (db rs) (lastCommitID rs) (pruning rs) (storesParams rs)
    st (keysByName rs).

Definition NewCommitMultiStore (d : DB) : rootMultiStore :=
  mkRootMultiStore d zeroCommitID 0%N [] [] ∅.

(** A nil [key] is [None]. *)
Definition MountStoreWithDB (rs : rootMultiStore) (key : option StoreKey)
    (typ : StoreType) (d : option DB) : M rootMultiStore :=
  match key with
  | None => Panic "MountIAVLStore() key cannot be nil"
  | Some key =>
      match mapGet key (storesParams rs), keysByName rs !! Name key with
      | Some _, _ =>
          Panic ("rootMultiStore duplicate store key " +:+ StoreKey_String key)
      | None, Some _ =>
          Panic ("rootMultiStore duplicate store key name " +:+ StoreKey_String key)
      | None, None =>
          Ret (mkRootMultiStore (db rs) (lastCommitID rs) (pruning rs)
                 (mapSet key (mkStoreParams key d typ) (storesParams rs))
                 (stores rs)
                 (<[Name key := key]> (keysByName rs)))
      end
  end.

(** *** Persisted metadata *)

Definition getLatestVersion (d : DB) : M Z :=
  match d !! latestVersionKey with
  | None => Ret 0
  | Some latestBytes =>
      match UnmarshalInt64 latestBytes with
      | Error e => Panic e
      | OK latest => Ret latest
      end
  end.

Definition setLatestVersion (batch : Batch) (version : Z) : Batch :=
  Batch_Set batch latestVersionKey (MarshalInt64 version).

Definition getCommitInfo (d : DB) (ver : Z) : res CommitInfo :=
  match d !! commitInfoKey ver with
  | None => Error "failed to get rootMultiStore: no data"
  | Some cInfoBytes =>
      match UnmarshalCommitInfo cInfoBytes with
      | Error e => Error ("failed to get rootMultiStore: " +:+ e)
      | OK cInfo => OK cInfo
      end
  end.

Definition setCommitInfo (batch : Batch) (version : Z) (cInfo : CommitInfo) : M Batch :=
  match MarshalCommitInfo cInfo with
  | Error e => Panic e
  | OK cInfoBytes => Ret (Batch_Set batch (commitInfoKey version) cInfoBytes)
  end.

(** *** Hashing a CommitInfo *)

Definition StoreInfo_GetHash (si : StoreInfo) : bytes :=
  Hash (Core_CommitID (Core si)).

Definition StoreInfo_Hash (si : StoreInfo) : bytes :=
  tmhash_Sum (MarshalStoreCore (Core si)).

Definition CommitInfo_Hash (ci : CommitInfo) : bytes :=
  let m : gmap string bytes :=
    if IsUpgrade BEP171 then
      foldl (fun m storeInfo => <[SI_Name storeInfo := StoreInfo_GetHash storeInfo]> m)
            ∅ (StoreInfos ci)
    else
      foldl (fun m storeInfo => <[SI_Name storeInfo := StoreInfo_Hash storeInfo]> m)
            ∅ (StoreInfos ci) in
  SimpleHashFromMap m.

Definition CommitInfo_CommitID (ci : CommitInfo) : CommitID :=
  mkCommitID (CI_Version ci) (CommitInfo_Hash ci).

Definition toMap (ci : CommitInfo) : gmap string bytes :=
  if IsUpgrade BEP171 then
    foldl (fun m storeInfo => <[SI_Name storeInfo := Hash (Core_CommitID (Core storeInfo))]> m)
          ∅ (StoreInfos ci)
  else
    foldl (fun m storeInfo => <[SI_Name storeInfo := StoreInfo_Hash storeInfo]> m)
          ∅ (StoreInfos ci).

Definition CommitInfo_ProofOp (ci : CommitInfo) (storeName : string) : M ProofOp :=
  let cmap := toMap ci in
  let '(_, proofs, _) := SimpleProofsFromMap cmap in
  match proofs !! storeName with
  | None =>
      Panic ("ProofOp for " +:+ storeName +:+ " but not registered store name")
  | Some proof =>
      match ConvertExistenceProof proof (bytes_of_string storeName)
              (default [] (cmap !! storeName)) with
      | Error e =>
          Panic ("could not convert simple proof to existence proof: " +:+ e)
      | OK existProof =>
          let commitmentProof := CommitmentProof_Exist existProof in
          Ret (SimpleMerkleCommitmentOp (bytes_of_string storeName) commitmentProof)
      end
  end.

(** *** Loading *)

Definition loadCommitStoreFromParams (rs : rootMultiStore) (key : StoreKey)
    (id : CommitID) (params : storeParams) : M (res S) :=
  let d :=
    match sp_db params with
    | Some pd => NewPrefixDB pd (bytes_of_string "s/_/")
    | None =>
        NewPrefixDB (db rs)
          (bytes_of_string ("s/k:" +:+ Name (sp_key params) +:+ "/"))
    end in
  match sp_typ params with
  | StoreTypeMulti => Panic "recursive MultiStores not yet supported"
  | StoreTypeIAVL => Ret (LoadIAVLStore d id (pruning rs))
  | StoreTypeDB => Panic "dbm.DB is not a CommitStore"
  | StoreTypeTransient =>
      if isTransientStoreKey key then Ret (OK newTransientStore)
      else Ret (Error ("invalid StoreKey for StoreTypeTransient: "
                       +:+ StoreKey_String key))
  | StoreTypeOther _ => Panic "unrecognized store type"
  end.

Fixpoint nameToKey_range (ps : list (StoreKey * storeParams)) (name : string)
  : M StoreKey :=
  match ps with
  | [] => Panic ("Unknown name " +:+ name)
  | (key, _) :: ps' =>
      if decide (Name key = name) then Ret key else nameToKey_range ps' name
  end.

Definition nameToKey (rs : rootMultiStore) (name : string) : M StoreKey :=
  nameToKey_range (storesParams rs) name.

(** The loop of [LoadVersion] for version 0: it assigns into [rs.stores]
    as it goes, so it returns the map as it stands when the loop ends,
    whether by exhaustion or by the early return. *)
Fixpoint loadVersion0_range (rs : rootMultiStore)
    (ps : list (StoreKey * storeParams)) (st : list (StoreKey * S))
  : M (list (StoreKey * S) * error) :=
  match ps with
  | [] => Ret (st, None)
  | (key, params) :: ps' =>
      r ← loadCommitStoreFromParams rs key zeroCommitID params;
      match r with
      | Error e => Ret (st, Some ("failed to load rootMultiStore: " +:+ e))
      | OK store => loadVersion0_range rs ps' (mapSet key store st)
      end
  end.

(** "Convert StoreInfos slice to map" *)
Fixpoint infos_range (rs : rootMultiStore) (sis : list StoreInfo)
    (infos : gmap StoreKey StoreInfo) : M (gmap StoreKey StoreInfo) :=
  match sis with
  | [] => Ret infos
  | storeInfo :: sis' =>
      key ← nameToKey rs (SI_Name storeInfo);
      infos_range rs sis' (<[key := storeInfo]> infos)
  end.

(** "Load each Store" *)
Fixpoint newStores_range (rs : rootMultiStore)
    (infos : gmap StoreKey StoreInfo)
    (ps : list (StoreKey * storeParams)) (newStores : list (StoreKey * S))
  : M (res (list (StoreKey * S))) :=
  match ps with
  | [] => Ret (OK newStores)
  | (key, params) :: ps' =>
      let id :=
        match infos !! key with
        | Some info => Core_CommitID (Core info)
        | None => zeroCommitID
        end in
      r ← loadCommitStoreFromParams rs key id params;
      match r with
      | Error e => Ret (Error ("failed to load rootMultiStore: " +:+ e))
      | OK store => newStores_range rs infos ps' (mapSet key store newStores)
      end
  end.

Definition LoadVersion (rs : rootMultiStore) (ver : Z) : M (rootMultiStore * error) :=
  if decide (ver = 0) then
    '(st, err) ← loadVersion0_range rs (storesParams rs) (stores rs);
    match err with
    | Some e => Ret (set_stores rs st, Some e)
    | None => Ret (set_lastCommitID (set_stores rs st) zeroCommitID, None)
    end
  else
    match getCommitInfo (db rs) ver with
    | Error e => Ret (rs, Some e)
    | OK cInfo =>
        infos ← infos_range rs (StoreInfos cInfo) ∅;
        r ← newStores_range rs infos (storesParams rs) [];
        match r with
        | Error e => Ret (rs, Some e)
        | OK newStores =>
            Ret (set_stores (set_lastCommitID rs (CommitInfo_CommitID cInfo))
                   newStores, None)
        end
    end.

Definition LoadLatestVersion (rs : rootMultiStore) : M (rootMultiStore * error) :=
  ver ← getLatestVersion (db rs);
  LoadVersion rs ver.

Definition LastCommitID (rs : rootMultiStore) : CommitID := lastCommitID rs.

(** *** Committing *)

(** The loop of [commitStores]. The stores are objects that [Commit]
    mutates, so the loop also returns the map with each visited store in
    its state after the visit. *)
Fixpoint commitStores_range (version : Z) (storeMap : list (StoreKey * S))
    (storeInfos : list StoreInfo)
  : M (list StoreInfo * list (StoreKey * S)) :=
  match storeMap with
  | [] => Ret (storeInfos, [])
  | (key, store) :: rest =>
      if negb (ShouldCommitStore (Name key)) then
        '(sis, rest') ← commitStores_range version rest storeInfos;
        Ret (sis, (key, store) :: rest')
      else
        let store :=
          if ShouldSetStoreVersion (Name key)
          then store_SetVersion (int64_sub version 1) store
          else store in
        '(commitID, store) ← store_Commit store;
        if decide (store_GetStoreType store = StoreTypeTransient) then
          '(sis, rest') ← commitStores_range version rest storeInfos;
          Ret (sis, (key, store) :: rest')
        else
          let si := mkStoreInfo (Name key) (mkStoreCore commitID) in
          '(sis, rest') ← commitStores_range version rest (storeInfos ++ [si]);
          Ret (sis, (key, store) :: rest')
  end.

Definition commitStores (version : Z) (storeMap : list (StoreKey * S))
  : M (CommitInfo * list (StoreKey * S)) :=
  '(storeInfos, storeMap') ← commitStores_range version storeMap [];
  Ret (mkCommitInfo version storeInfos, storeMap').

Definition Commit (rs : rootMultiStore) : M (rootMultiStore * CommitID) :=
  let version := int64_add (Version (lastCommitID rs)) 1 in
  '(commitInfo, stores') ← commitStores version (stores rs);
  let batch : Batch := [] in
  batch ← setCommitInfo batch version commitInfo;
  let batch := setLatestVersion batch version in
  let db' := Batch_Write batch (db rs) in
  let commitID := mkCommitID version (CommitInfo_Hash commitInfo) in
  Ret (set_lastCommitID (set_stores (set_db rs db') stores') commitID, commitID).

(** *** Queries *)

Definition getStoreByName (rs : rootMultiStore) (name : string) : option S :=
  match keysByName rs !! name with
  | None => None
  | Some key => mapGet key (stores rs)
  end.

(** [strings.SplitN(s, "/", 2)]: the part before the first slash and,
    when there is a slash, the part after it. *)
Fixpoint splitN2 (s : string) : string * option string :=
  match s with
  | EmptyString => ("", None)
  | String c s' =>
      if decide (c = "/"%char) then ("", Some s')
      else let '(a, b) := splitN2 s' in (String c a, b)
  end.

Definition parsePath (path : string) : string * string * option sdkError :=
  match path with
  | String c rest =>
      if decide (c = "/"%char) then
        let '(storeName, tl) := splitN2 rest in
        match tl with
        | Some p => (storeName, "/" +:+ p, None)
        | None => (storeName, "", None)
        end
      else ("", "", Some (ErrUnknownRequest ("invalid path: " +:+ path)))
  | EmptyString => ("", "", Some (ErrUnknownRequest ("invalid path: " +:+ path)))
  end.

Definition set_Path (req : RequestQuery) (p : string) : RequestQuery :=
  mkRequestQuery (req_Data req) p (req_Height req) (req_Prove req).

(** [res.Proof.Ops = append(res.Proof.Ops, op)]; [res.Proof] is a pointer. *)
Definition appendProofOp (r : ResponseQuery) (op : ProofOp) : M ResponseQuery :=
  match res_Proof r with
  | None => Panic "invalid memory address or nil pointer dereference"
  | Some ops => Ret (set_Proof r (Some (ops ++ [op])))
  end.

Definition Query (rs : rootMultiStore) (req : RequestQuery) : M ResponseQuery :=
  let path := req_Path req in
  let '(storeName, subpath, err) := parsePath path in
  match err with
  | Some e => Ret (QueryResult e)
  | None =>
      match getStoreByName rs storeName with
      | None =>
          let msg := "no such store: " +:+ storeName in
          Ret (QueryResult (ErrUnknownRequest msg))
      | Some store =>
          match store_Queryable store with
          | None =>
              let msg := "store " +:+ storeName +:+ " doesn't support queries" in
              Ret (QueryResult (ErrUnknownRequest msg))
          | Some queryable =>
              let req := set_Path req subpath in
              r ← queryable req;
              if negb (req_Prove req) || negb (RequireProof subpath) then Ret r
              else
                match getCommitInfo (db rs) (res_Height r) with
                | Error errMsg => Ret (QueryResult (ErrInternal errMsg))
                | OK commitInfo =>
                    if decide (subpath = "/ics23-key") then
                      op ← CommitInfo_ProofOp commitInfo storeName;
                      appendProofOp r op
                    else
                      appendProofOp r
                        (MultiStoreProofOp (bytes_of_string storeName)
                           (NewMultiStoreProof (StoreInfos commitInfo)))
                end
          end
      end
  end.
End RootMultiStore.

Arguments rootMultiStore S : clear implicits.

(** ** The remaining operations of the store *)

Section RootMultiStoreRest.
Context `{Merkle} `{Codec} `{Protocol} {S : Type} `{!CommitStoreOps S}.

(** The stores are objects that [SetPruning] mutates where they are. *)
Definition SetPruning (rs : rootMultiStore S) (p : PruningStrategy)
  : rootMultiStore S :=
  mkRootMultiStore (db rs) (lastCommitID rs) p (storesParams rs)
    ((fun ks => (ks.1, store_SetPruning p ks.2)) <$> stores rs)
    (keysByName rs).

Definition GetStoreType (rs : rootMultiStore S) : StoreType := StoreTypeMulti.

(** A missing key gives the nil store. *)
Definition GetCommitStore (rs : rootMultiStore S) (key : StoreKey) : option S :=
  mapGet key (stores rs).

Definition GetStore (rs : rootMultiStore S) (key : StoreKey) : option S :=
  mapGet key (stores rs).
End RootMultiStoreRest.

(** *** Tracing

    [WithTracer], [WithTracingContext], [TracingEnabled] and
    [ResetTraceContext] read and write only the trace writer and the trace
    context of the multi-store; they are modelled on a record of these two
    fields. A nil writer or context is [None]. *)

Section Tracing.
Context {W V : Type}.

Record tracing : Type := mkTracing {
  traceWriter : option W;
  traceContext : option (gmap string V);
}.

Definition WithTracer (t : tracing) (w : option W) : tracing :=
  mkTracing w (traceContext t).

(** The range over [tc] assigns each of its entries into the context. *)
Definition WithTracingContext (t : tracing) (tc : option (gmap string V))
  : tracing :=
  match traceContext t with
  | Some ctx =>
      mkTracing (traceWriter t)
        (Some (foldl (fun acc kv => <[kv.1 := kv.2]> acc) ctx
                 (map_to_list (default ∅ tc))))
  | None => mkTracing (traceWriter t) tc
  end.

Definition TracingEnabled (t : tracing) : bool :=
  match traceWriter t with
  | Some _ => true
  | None => false
  end.

Definition ResetTraceContext (t : tracing) : tracing :=
  mkTracing (traceWriter t) None.
End Tracing.

Arguments tracing W V : clear implicits.

(** ** The side-chain handlers of x/gov/handler_sidechain.go

    The handlers are modelled by the [Result] they return. The keeper, the
    context, decimals, results, tags and the three generic handlers they
    forward to are declared outside this file and are an interface; what
    the generic handlers write happens behind the context. *)

Module Gov.

Class Env : Type := {
  Ctx : Type;
  Keeper : Type;
  Dec : Type;
  Coins : Type;
  Codespace : Type;
  ProposalKind : Type;
  VoteOption : Type;
  Result : Type;
  Tags : Type;
  ProposalKind_eq_dec :: EqDecision ProposalKind;
  ProposalTypeText : ProposalKind;
  (* keeper.vs.GetSideChainTotalVotingPower(ctx, id) *)
  GetSideChainTotalVotingPower : Keeper → Ctx → string → Dec;
  NewDecFromInt : Z → Dec;
  LTE : Dec → Dec → bool;
  (* keeper.ScKeeper.PrepareCtxForSideChain(ctx, id) *)
  PrepareCtxForSideChain : Keeper → Ctx → string → res Ctx;
  codespace : Keeper → Codespace;
  (* the results of the three errors *)
  ErrMsgNotSupported_Result : string → Result;
  ErrInvalidProposalType_Result : Codespace → ProposalKind → Result;
  ErrInvalidSideChainId_Result : Codespace → string → Result;
  IsOK : Result → bool;
  Result_Tags : Result → Tags;
  set_Tags : Result → Tags → Result;
  AppendTag : Tags → string → bytes → Tags;
  (* events.SideChainID *)
  SideChainID : string;
}.

Record MsgSubmitProposal `{Env} : Type := NewMsgSubmitProposal {
  sp_Title : string;
  sp_Description : string;
  sp_ProposalType : ProposalKind;
  sp_Proposer : bytes;
  sp_InitialDeposit : Coins;
  sp_VotingPeriod : Z;
}.

Record MsgDeposit `{Env} : Type := NewMsgDeposit {
  dp_Depositer : bytes;
  dp_ProposalID : Z;
  dp_Amount : Coins;
}.

Record MsgVote `{Env} : Type := NewMsgVote {
  vt_Voter : bytes;
  vt_ProposalID : Z;
  vt_Option : VoteOption;
}.

Record MsgSideChainSubmitProposal `{Env} : Type := mkMsgSideChainSubmitProposal {
  Title : string;
  Description : string;
  ProposalType : ProposalKind;
  Proposer : bytes;
  InitialDeposit : Coins;
  VotingPeriod : Z;
  SideChainId : string;
}.

Record MsgSideChainDeposit `{Env} : Type := mkMsgSideChainDeposit {
  Depositer : bytes;
  Deposit_ProposalID : Z;
  Amount : Coins;
  Deposit_SideChainId : string;
}.

Record MsgSideChainVote `{Env} : Type := mkMsgSideChainVote {
  Voter : bytes;
  Vote_ProposalID : Z;
  Option : VoteOption;
  Vote_SideChainId : string;
}.

Arguments NewMsgSubmitProposal {_} _ _ _ _ _ _.
Arguments NewMsgDeposit {_} _ _ _.
Arguments NewMsgVote {_} _ _ _.
Arguments mkMsgSideChainSubmitProposal {_} _ _ _ _ _ _ _.
Arguments mkMsgSideChainDeposit {_} _ _ _ _.
Arguments mkMsgSideChainVote {_} _ _ _ _.

(** The generic handlers of x/gov/handler.go. *)
Class Handlers `{Env} : Type := {
  handleMsgSubmitProposal : Ctx → Keeper → MsgSubmitProposal → Result;
  handleMsgDeposit : Ctx → Keeper → MsgDeposit → Result;
  handleMsgVote : Ctx → Keeper → MsgVote → Result;
}.

Section Handlers.
Context `{Protocol} `{Env} `{!Handlers}.

(** [if result.IsOK() { result.Tags = result.Tags.AppendTag(events.SideChainID, id) }] *)
Definition tagSideChain (result : Result) (id : string) : Result :=
  if IsOK result
  then set_Tags result (AppendTag (Result_Tags result) SideChainID (bytes_of_string id))
  else result.

(** The part of [handleMsgSideChainSubmitProposal] below the two fork
    gates. *)
Definition submitProposalAfterForkGates (ctx : Ctx) (keeper : Keeper)
    (msg : MsgSideChainSubmitProposal) : Result :=
  if bool_decide (ProposalType msg = ProposalTypeText) && negb (IsUpgrade BEP173)
  then ErrInvalidProposalType_Result (codespace keeper) (ProposalType msg)
  else
    match PrepareCtxForSideChain keeper ctx (SideChainId msg) with
    | Error _ => ErrInvalidSideChainId_Result (codespace keeper) (SideChainId msg)
    | OK ctx =>
        let result :=
          handleMsgSubmitProposal ctx keeper
            (NewMsgSubmitProposal (Title msg) (Description msg) (ProposalType msg)
               (Proposer msg) (InitialDeposit msg) (VotingPeriod msg)) in
        tagSideChain result (SideChainId msg)
    end.

Definition handleMsgSideChainSubmitProposal (ctx : Ctx) (keeper : Keeper)
    (msg : MsgSideChainSubmitProposal) : Result :=
  if IsUpgrade BCFusionSecondHardFork then ErrMsgNotSupported_Result ""
  else if IsUpgrade BCFusionFirstHardFork then
    let vp := GetSideChainTotalVotingPower keeper ctx (SideChainId msg) in
    if LTE vp (NewDecFromInt 5000000) then ErrMsgNotSupported_Result ""
    else submitProposalAfterForkGates ctx keeper msg
  else submitProposalAfterForkGates ctx keeper msg.

Definition handleMsgSideChainDeposit (ctx : Ctx) (keeper : Keeper)
    (msg : MsgSideChainDeposit) : Result :=
  match PrepareCtxForSideChain keeper ctx (Deposit_SideChainId msg) with
  | Error _ =>
      ErrInvalidSideChainId_Result (codespace keeper) (Deposit_SideChainId msg)
  | OK ctx =>
      let result :=
        handleMsgDeposit ctx keeper
          (NewMsgDeposit (Depositer msg) (Deposit_ProposalID msg) (Amount msg)) in
      tagSideChain result (Deposit_SideChainId msg)
  end.

Definition handleMsgSideChainVote (ctx : Ctx) (keeper : Keeper)
    (msg : MsgSideChainVote) : Result :=
  match PrepareCtxForSideChain keeper ctx (Vote_SideChainId msg) with
  | Error _ =>
      ErrInvalidSideChainId_Result (codespace keeper) (Vote_SideChainId msg)
  | OK ctx =>
      let result :=
        handleMsgVote ctx keeper
          (NewMsgVote (Voter msg) (Vote_ProposalID msg) (Option msg)) in
      tagSideChain result (Vote_SideChainId msg)
  end.
End Handlers.
End Gov.

(** ** Specification vocabulary *)

Section Vocabulary.
Context `{Merkle} `{Codec} `{Protocol} {S : Type} `{!CommitStoreOps S}.

(** The per-store hash that enters the name→hash mapping under the active
    protocol version. *)
Definition perStoreHash (si : StoreInfo) : bytes :=
  if IsUpgrade BEP171 then Hash (Core_CommitID (Core si)) else StoreInfo_Hash si.

(** The (name, per-store-hash) pairs of a CommitInfo, in slice order. *)
Definition hashPairs (ci : CommitInfo) : list (string * bytes) :=
  (fun si => (SI_Name si, perStoreHash si)) <$> StoreInfos ci.

(** The entry recorded for [name]: the last one with that name, since
    later assignments to a map key overwrite earlier ones. *)
Definition recorded (name : string) (sis : list StoreInfo) : option StoreInfo :=
  last (filter (fun si => SI_Name si = name) sis).

(** The CommitID at which [LoadVersion] instantiates the store of [key]:
    the one recorded for the key, or the zero CommitID. *)
Definition resolvedCommitID (infos : gmap StoreKey StoreInfo) (key : StoreKey)
  : CommitID :=
  match infos !! key with
  | Some info => Core_CommitID (Core info)
  | None => zeroCommitID
  end.

(** A live store takes part in the commitments: the commit policy accepts
    its name and its type is not Transient. *)
Definition participates (ks : StoreKey * S) : Prop :=
  ShouldCommitStore (Name ks.1) = true ∧
  store_GetStoreType ks.2 ≠ StoreTypeTransient.

#[global] Instance participates_dec ks : Decision (participates ks).
Proof. unfold participates. apply _. Defined.

(** The store as [commitStores] hands it to [Commit()]. *)
Definition prepared (version : Z) (key : StoreKey) (store : S) : S :=
  if ShouldSetStoreVersion (Name key)
  then store_SetVersion (int64_sub version 1) store
  else store.

(** The entry [si] records what the [Commit()] of the live store under
    [key] returned, and that store is not transient afterwards. *)
Definition recordsCommitOf (version : Z) (before after : list (StoreKey * S))
    (si : StoreInfo) : Prop :=
  ∃ key store store',
    (key, store) ∈ before ∧ (key, store') ∈ after ∧
    SI_Name si = Name key ∧
    ShouldCommitStore (Name key) = true ∧
    store_Commit (prepared version key store) = Ret (Core_CommitID (Core si), store') ∧
    store_GetStoreType store' ≠ StoreTypeTransient.

(** A store map assembled through the operations of the multi-store. *)
Inductive reachable : rootMultiStore S → Prop :=
  | reach_new d :
      reachable (NewCommitMultiStore d)
  | reach_mount rs key typ d rs' :
      reachable rs → MountStoreWithDB rs key typ d = Ret rs' → reachable rs'
  | reach_load rs ver rs' err :
      reachable rs → LoadVersion rs ver = Ret (rs', err) → reachable rs'
  | reach_commit rs rs' id :
      reachable rs → Commit rs = Ret (rs', id) → reachable rs'.

(** Keys are mounted once, under distinct names, indexed by name, and
    only mounted keys have a live store. *)
Record wf (rs : rootMultiStore S) : Prop := mkWf {
  wf_params_keys : NoDup (storesParams rs).*1;
  wf_params_names : NoDup (Name <$> (storesParams rs).*1);
  wf_stores_keys : NoDup (stores rs).*1;
  wf_stores_mounted : (stores rs).*1 ⊆ (storesParams rs).*1;
  wf_keysByName : ∀ n k,
    keysByName rs !! n = Some k ↔ k ∈ (storesParams rs).*1 ∧ Name k = n;
}.

(** The CommitInfo record of version [ver] is read back from [d], and
    carries that version. *)
Definition readable (d : DB) (ver : Z) : Prop :=
  ∃ ci, getCommitInfo d ver = OK ci ∧ CI_Version ci = ver.

(** [n] commits in a row. *)
Fixpoint Commits (n : nat) (rs : rootMultiStore S) : M (rootMultiStore S) :=
  match n with
  | O => Ret rs
  | Datatypes.S n' =>
      '(rs', _) ← Commit rs;
      Commits n' rs'
  end.

(** [strings.HasPrefix(path, "/")] *)
Definition hasSlashPrefix (path : string) : Prop :=
  ∃ rest, path = String "/" rest.

#[global] Instance hasSlashPrefix_dec path : Decision (hasSlashPrefix path).
Proof.
  destruct path as [|c rest]; [right; by intros [? ?]|].
  destruct (decide (c = "/"%char)) as [->|Hne].
  - left. by eexists.
  - right. intros [? [= ? ?]]. done.
Defined.

(** The string contains a slash. *)
Definition hasSlash (s : string) : Prop :=
  ∃ pre post, s = pre +:+ String "/" post.

(** The answer is an "unknown request" failure, respectively an "internal
    error" failure; in particular it is an answer, not a panic. *)
Definition unknownRequest (r : M ResponseQuery) : Prop :=
  ∃ msg, r = Ret (QueryResult (ErrUnknownRequest msg)).

Definition internalError (r : M ResponseQuery) : Prop :=
  ∃ msg, r = Ret (QueryResult (ErrInternal msg)).

(** What the visit of [commitStores] does to one store: nothing when the
    policy rejects the name, else the store's own commit. *)
Definition visited (version : Z) (before after : StoreKey * S) : Prop :=
  after.1 = before.1 ∧
  if ShouldCommitStore (Name before.1)
  then ∃ id, store_Commit (prepared version before.1 before.2) = Ret (id, after.2)
  else after.2 = before.2.

(** One iteration of the loop of [commitStores]: the entries it appends
    to [storeInfos], none or one, and the store as the iteration leaves
    it. *)
Definition visit (version : Z) (ks : StoreKey * S)
  : M (list StoreInfo * (StoreKey * S)) :=
  if negb (ShouldCommitStore (Name ks.1)) then Ret ([], ks)
  else
    '(commitID, store) ← store_Commit (prepared version ks.1 ks.2);
    if decide (store_GetStoreType store = StoreTypeTransient)
    then Ret ([], (ks.1, store))
    else Ret ([mkStoreInfo (Name ks.1) (mkStoreCore commitID)], (ks.1, store)).
End Vocabulary.

(** ** A small instance of the collaborators

    Used to run the definitions on concrete stores. *)

Module Demo.

(** Hashes are serialisations: the "Merkle root" of a map lists its
    entries in key order, and a proof for a key is the root itself. *)
Definition root (m : gmap string bytes) : bytes :=
  concat ((fun kv => bytes_of_string kv.1 ++ [x00] ++ kv.2 ++ [xff]) <$> map_to_list m).

#[export] Instance merkle : Merkle := {|
  SimpleProof := bytes;
  tmhash_Sum := fun bz => x01 :: bz;
  SimpleHashFromMap := root;
  SimpleProofsFromMap := fun m => (root m, (fun _ => root m) <$> m, (map_to_list m).*1);
  ComputeRootHash := fun p => p;
|}.

Fixpoint bytes_of_pos (p : positive) : bytes :=
  match p with
  | xH => []
  | xO p' => x00 :: bytes_of_pos p'
  | xI p' => x01 :: bytes_of_pos p'
  end.

Fixpoint pos_of_bytes (bz : bytes) : option positive :=
  match bz with
  | [] => Some xH
  | x00 :: bz' => xO <$> pos_of_bytes bz'
  | x01 :: bz' => xI <$> pos_of_bytes bz'
  | _ => None
  end.

#[export] Instance byte_countable : Countable byte.
Proof.
  refine (inj_countable Byte.to_N Byte.of_N _).
  apply Byte.of_to_N.
Defined.

#[export] Instance CommitID_countable : Countable CommitID.
Proof.
  refine (inj_countable' (fun c => (Version c, Hash c))
            (fun t => mkCommitID t.1 t.2) _).
  by intros [].
Defined.

#[export] Instance StoreInfo_countable : Countable StoreInfo.
Proof.
  refine (inj_countable' (fun si => (SI_Name si, Core_CommitID (Core si)))
            (fun t => mkStoreInfo t.1 (mkStoreCore t.2)) _).
  by intros [? []].
Defined.

#[export] Instance CommitInfo_countable : Countable CommitInfo.
Proof.
  refine (inj_countable' (fun ci => (CI_Version ci, StoreInfos ci))
            (fun t => mkCommitInfo t.1 t.2) _).
  by intros [].
Defined.

Definition marshal `{Countable A} (a : A) : bytes := bytes_of_pos (encode a).

Definition unmarshal `{Countable A} (bz : bytes) : res A :=
  match pos_of_bytes bz ≫= decode with
  | Some a => OK a
  | None => Error "unmarshal: malformed input"
  end.

#[export] Instance codec : Codec := {|
  MarshalCommitInfo := fun ci => OK (marshal ci);
  UnmarshalCommitInfo := unmarshal;
  MarshalInt64 := marshal;
  UnmarshalInt64 := unmarshal;
  MarshalStoreCore := fun c => marshal (Core_CommitID c);
|}.

#[export] Instance protocol : Protocol := {|
  IsUpgrade := fun _ => true;
  ShouldCommitStore := fun _ => true;
  ShouldSetStoreVersion := fun _ => false;
  RequireProof := fun subpath => bool_decide (subpath = "/key" ∨ subpath = "/ics23-key");
  ABCICode := fun e =>
    match err_code e with
    | CodeInternal => 65537%N
    | CodeUnknownRequest => 65542%N
    end;
  ABCILog := err_msg;
|}.

(** A store is its type, its last commit id and the one value it holds. *)
Record store : Type := mkStore {
  st_typ : StoreType;
  st_id : CommitID;
  st_val : bytes;
}.

Definition commit (s : store) : M (CommitID * store) :=
  let id :=
    match st_typ s with
    | StoreTypeTransient => zeroCommitID
    | _ => mkCommitID (int64_add (Version (st_id s)) 1) (x02 :: st_val s)
    end in
  Ret (id, mkStore (st_typ s) id (st_val s)).

(** A store answers the key queries it knows and reports any other path
    as an unknown request. *)
Definition query (s : store) (req : RequestQuery) : M ResponseQuery :=
  if bool_decide (req_Path req = "/key" ∨ req_Path req = "/ics23-key") then
    Ret (mkResponseQuery 0 "" "" 0 (req_Data req) (st_val s) (Some [])
           (Version (st_id s)))
  else
    Ret (QueryResult (ErrUnknownRequest ("Unexpected Query path: " +:+ req_Path req))).

#[export] Instance storeOps : CommitStoreOps store := {|
  store_Commit := commit;
  store_SetVersion := fun v s =>
    mkStore (st_typ s) (mkCommitID v (Hash (st_id s))) (st_val s);
  store_SetPruning := fun _ s => s;
  store_GetStoreType := st_typ;
  store_Queryable := fun s =>
    match st_typ s with
    | StoreTypeIAVL => Some (query s)
    | _ => None
    end;
  LoadIAVLStore := fun _ id _ => OK (mkStore StoreTypeIAVL id []);
  newTransientStore := mkStore StoreTypeTransient zeroCommitID [];
|}.

Definition keyA : StoreKey := KVStoreKey 1 "a".
Definition keyB : StoreKey := KVStoreKey 2 "b".
Definition keyT : StoreKey := TransientStoreKey 3 "t".

Definition mount (key : StoreKey) (typ : StoreType) (rs : rootMultiStore store)
  : rootMultiStore store :=
  match MountStoreWithDB rs (Some key) typ None with
  | Ret rs' => rs'
  | Panic _ => rs
  end.

(** [a] is an IAVL store; [b] is declared transient under a key that is
    not a transient key, which the instantiation switch rejects. *)
Definition rsAB : rootMultiStore store :=
  mount keyB StoreTypeTransient (mount keyA StoreTypeIAVL (NewCommitMultiStore ∅)).

(** An IAVL store and a transient store. *)
Definition rsAT : rootMultiStore store :=
  mount keyT StoreTypeTransient (mount keyA StoreTypeIAVL (NewCommitMultiStore ∅)).

Definition run {A} (m : M A) (dflt : A) : A :=
  match m with
  | Ret a => a
  | Panic _ => dflt
  end.

(** [rsAT] after [LoadVersion(0)], and after one more [Commit()]. *)
Definition rsAT0 : rootMultiStore store := (run (LoadVersion rsAT 0) (rsAT, None)).1.
Definition rsAT1 : rootMultiStore store := (run (Commit rsAT0) (rsAT0, zeroCommitID)).1.

Definition idAT1 : CommitID := (run (Commit rsAT0) (rsAT0, zeroCommitID)).2.

(** [rsAT0] after two commits. *)
Definition rsAT2 : rootMultiStore store := run (Commits 2 rsAT0) rsAT0.

(** [rsAB] after a [Commit()], with no load before it. *)
Definition rsAB1 : rootMultiStore store := (run (Commit rsAB) (rsAB, zeroCommitID)).1.

(** A multi-store over the database of [rsAT1] that mounts only [t]. *)
Definition rsT : rootMultiStore store :=
  mount keyT StoreTypeTransient (NewCommitMultiStore (db rsAT1)).

(** The mounts of [rsAB] over the database of [rsAT1]. *)
Definition rsABd : rootMultiStore store :=
  mount keyB StoreTypeTransient
    (mount keyA StoreTypeIAVL (NewCommitMultiStore (db rsAT1))).

(** [rsAT1] after [LoadVersion(1)]. *)
Definition rsAT1L : rootMultiStore store := (run (LoadVersion rsAT1 1) (rsAT1, None)).1.

(** [rsAT1] over a database whose record of version 1 lists no store. *)
Definition rsAT1e : rootMultiStore store :=
  set_db rsAT1 (<[commitInfoKey 1 := marshal (mkCommitInfo 1 [])]> (db rsAT1)).

Definition reqProve (path : string) : RequestQuery := mkRequestQuery [] path 0 true.

(** Two IAVL stores, loaded at version 0, and the same multi-store with
    its live stores ranged over in the other order. *)
Definition keyC : StoreKey := KVStoreKey 4 "c".

Definition rsAC0 : rootMultiStore store :=
  (run (LoadVersion
          (mount keyC StoreTypeIAVL (mount keyA StoreTypeIAVL (NewCommitMultiStore ∅))) 0)
       (NewCommitMultiStore ∅, None)).1.

Definition rsCA0 : rootMultiStore store := set_stores rsAC0 (reverse (stores rsAC0)).

(** [rsAT2], two commits in, rolled back to version 1. *)
Definition rsAT2L : rootMultiStore store := (run (LoadVersion rsAT2 1) (rsAT2, None)).1.
End Demo.

(** * Properties *)

(** Decides a closed decidable proposition by evaluation. *)
Ltac by_compute := apply (bool_decide_unpack _); vm_compute; exact I.

(** ** The monad *)

Lemma panics_Panic {A} (msg : string) : panics (@Panic A msg).
Proof. by exists msg. Qed.

Lemma panics_not_Ret {A} (m : M A) (a : A) : panics m → m ≠ Ret a.
Proof. intros [msg ->]; discriminate. Qed.

(** ** int64 *)

Lemma wrap64_id z : MinInt64 ≤ z ≤ MaxInt64 → wrap64 z = z.
Proof.
  unfold wrap64, MinInt64, MaxInt64. intros Hz.
  rewrite Z.mod_small; lia.
Qed.

Lemma wrap64_range z : MinInt64 ≤ wrap64 z ≤ MaxInt64.
Proof.
  unfold wrap64, MinInt64, MaxInt64.
  pose proof (Z.mod_pos_bound (z + 2 ^ 63) (2 ^ 64)). lia.
Qed.

Lemma wrap64_add_l a b : wrap64 (wrap64 a + b) = wrap64 (a + b).
Proof.
  unfold wrap64.
  replace ((a + 2 ^ 63) mod 2 ^ 64 - 2 ^ 63 + b + 2 ^ 63)
    with ((a + 2 ^ 63) mod 2 ^ 64 + b) by lia.
  rewrite Zplus_mod_idemp_l. do 2 f_equal. lia.
Qed.

(** ** Database keys *)

Lemma commitInfoKey_inj v w : commitInfoKey v = commitInfoKey w → v = w.
Proof.
  unfold commitInfoKey. intros Heq.
  apply (inj (String.append "s/")) in Heq.
  apply DecimalZ.to_int_inj.
  pose proof (DecimalString.NilEmpty.isi (Z.to_int v)) as Hv.
  pose proof (DecimalString.NilEmpty.isi (Z.to_int w)) as Hw.
  rewrite Heq in Hv. congruence.
Qed.

Lemma commitInfoKey_not_latest v : commitInfoKey v ≠ latestVersionKey.
Proof.
  unfold commitInfoKey, latestVersionKey. intros Heq.
  apply (inj (String.append "s/")) in Heq.
  destruct (Z.to_int v) as [u|u]; destruct u; discriminate.
Qed.

(** ** Go maps *)

Section GoMapFacts.
Context {K V : Type} `{EqDecision K}.
Implicit Types (m : list (K * V)) (k : K) (v : V).

Lemma mapGet_None k m : mapGet k m = None ↔ k ∉ m.*1.
Proof.
  induction m as [|[k' v'] m IH]; simpl.
  - split; [intros _; apply not_elem_of_nil | done].
  - rewrite not_elem_of_cons. case_decide; [|tauto].
    split; [done | by intros [? _]].
Qed.

Lemma mapSet_keys_fresh k v m : k ∉ m.*1 → mapSet k v m = m ++ [(k, v)].
Proof.
  induction m as [|[k' v'] m IH]; csimpl; [done|].
  rewrite not_elem_of_cons. intros [Hne Hm].
  case_decide; [done | by rewrite IH].
Qed.

Lemma mapSet_keys_present k v m : k ∈ m.*1 → (mapSet k v m).*1 = m.*1.
Proof.
  induction m as [|[k' v'] m IH]; csimpl.
  - by intros ?%elem_of_nil.
  - case_decide; [by subst|].
    rewrite elem_of_cons. intros [?|Hm]; [done | csimpl; by rewrite IH].
Qed.

Lemma mapSet_keys k v m :
  (mapSet k v m).*1 = if decide (k ∈ m.*1) then m.*1 else m.*1 ++ [k].
Proof.
  case_decide.
  - by apply mapSet_keys_present.
  - rewrite mapSet_keys_fresh by done. by rewrite fmap_app.
Qed.

Lemma mapSet_NoDup k v m : NoDup m.*1 → NoDup (mapSet k v m).*1.
Proof.
  intros Hm. rewrite mapSet_keys. case_decide; [done|].
  apply NoDup_app. split_and!; [done | | apply NoDup_singleton].
  intros x Hx ->%list_elem_of_singleton. done.
Qed.

Lemma mapGet_mapSet k k' v m :
  mapGet k' (mapSet k v m) = if decide (k' = k) then Some v else mapGet k' m.
Proof.
  induction m as [|[k0 v0] m IH]; simpl.
  - by repeat case_decide.
  - repeat (case_decide; simpl; subst); try done.
    all: rewrite IH; by repeat case_decide.
Qed.

Lemma elem_of_mapSet_keys k k' v m :
  k' ∈ (mapSet k v m).*1 ↔ k' = k ∨ k' ∈ m.*1.
Proof.
  rewrite mapSet_keys. case_decide.
  - split; [auto | by intros [->|?]].
  - rewrite elem_of_app, list_elem_of_singleton. tauto.
Qed.
End GoMapFacts.

(** ** The name→hash mapping *)

Section HashMap.
Context (f : StoreInfo → bytes).

Lemma recorded_snoc s sis si :
  recorded s (sis ++ [si]) =
    if decide (SI_Name si = s) then Some si else recorded s sis.
Proof.
  unfold recorded. rewrite filter_app, filter_cons, filter_nil.
  case_decide.
  - by rewrite last_snoc.
  - by rewrite app_nil_r.
Qed.

Lemma recorded_Some s sis si :
  recorded s sis = Some si → si ∈ sis ∧ SI_Name si = s.
Proof.
  unfold recorded. intros Hl%last_Some_elem_of.
  by apply list_elem_of_filter in Hl as [? ?].
Qed.

Lemma recorded_None s sis :
  recorded s sis = None ↔ s ∉ SI_Name <$> sis.
Proof.
  unfold recorded. rewrite last_None. split.
  - intros Hnil (si & -> & Hin)%list_elem_of_fmap.
    assert (si ∈ filter (fun si' => SI_Name si' = SI_Name si) sis) as Hf
      by (by apply list_elem_of_filter).
    rewrite Hnil in Hf. by apply elem_of_nil in Hf.
  - intros Hnot. apply elem_of_nil_inv.
    intros si [<- Hin]%list_elem_of_filter.
    apply Hnot, list_elem_of_fmap. eauto.
Qed.

Lemma foldl_insert_lookup (m : gmap string bytes) sis s :
  foldl (fun m si => <[SI_Name si := f si]> m) m sis !! s =
    match recorded s sis with
    | Some si => Some (f si)
    | None => m !! s
    end.
Proof.
  induction sis as [|si sis IH] using rev_ind; [done|].
  rewrite foldl_app, recorded_snoc. simpl.
  case_decide as Hs.
  - by rewrite <-Hs, lookup_insert_eq.
  - by rewrite lookup_insert_ne.
Qed.

Lemma foldl_insert_list_to_map sis :
  foldl (fun m si => <[SI_Name si := f si]> m) (∅ : gmap string bytes) sis =
    list_to_map (reverse ((fun si => (SI_Name si, f si)) <$> sis)).
Proof.
  induction sis as [|si sis IH] using rev_ind; [done|].
  rewrite foldl_app, fmap_app, reverse_app. simpl.
  by rewrite IH.
Qed.
End HashMap.

Section Hashing.
Context `{Merkle} `{Codec} `{Protocol}.

Lemma toMap_foldl ci :
  toMap ci =
    foldl (fun m si => <[SI_Name si := perStoreHash si]> m) ∅ (StoreInfos ci).
Proof. unfold toMap, perStoreHash. by destruct (IsUpgrade BEP171). Qed.

Lemma CommitInfo_Hash_toMap ci :
  CommitInfo_Hash ci = SimpleHashFromMap (toMap ci).
Proof.
  unfold CommitInfo_Hash, toMap, StoreInfo_GetHash.
  by destruct (IsUpgrade BEP171).
Qed.

Lemma toMap_lookup ci s :
  toMap ci !! s = perStoreHash <$> recorded s (StoreInfos ci).
Proof.
  rewrite toMap_foldl, foldl_insert_lookup.
  by destruct (recorded s (StoreInfos ci)).
Qed.

Lemma toMap_list_to_map ci : toMap ci = list_to_map (reverse (hashPairs ci)).
Proof. by rewrite toMap_foldl, foldl_insert_list_to_map. Qed.

Lemma hashPairs_names ci : (hashPairs ci).*1 = SI_Name <$> StoreInfos ci.
Proof. unfold hashPairs. by rewrite <-list_fmap_compose. Qed.

(** C5: the hash that [Hash()] and [toMap()] enter for a store name is
    chosen by the protocol version: with BEP171 active it is the raw
    [CommitID] hash of the entry recorded for the name, otherwise it is
    [StoreInfo.Hash()], the tmhash of the length-prefixed serialisation of
    the entry's core; and the aggregate hash is the Merkle hash of exactly
    that mapping. *)
Theorem per_store_hash_by_protocol (ci : CommitInfo) (s : string) :
  toMap ci !! s =
    (if IsUpgrade BEP171
     then (fun si => Hash (Core_CommitID (Core si)))
     else (fun si => tmhash_Sum (MarshalStoreCore (Core si))))
    <$> recorded s (StoreInfos ci)
  ∧ CommitInfo_Hash ci = SimpleHashFromMap (toMap ci).
Proof.
  split; [|apply CommitInfo_Hash_toMap].
  rewrite toMap_lookup. unfold perStoreHash, StoreInfo_Hash.
  by destruct (IsUpgrade BEP171).
Qed.

(** C2 (amended): when the store names of a CommitInfo are pairwise
    distinct, its hash depends only on the set of (name, per-store-hash)
    pairs: any CommitInfo whose pairs are a permutation of them has the
    same hash. *)
Theorem Hash_order_independent (ci1 ci2 : CommitInfo) :
  NoDup (SI_Name <$> StoreInfos ci1) →
  hashPairs ci1 ≡ₚ hashPairs ci2 →
  CommitInfo_Hash ci1 = CommitInfo_Hash ci2.
Proof.
  intros Hnd Hperm.
  rewrite !CommitInfo_Hash_toMap, !toMap_list_to_map. f_equal.
  apply list_to_map_proper.
  - rewrite fmap_reverse, hashPairs_names.
    by rewrite reverse_Permutation.
  - by rewrite !reverse_Permutation.
Qed.

Lemma hashPairs_Permutation ci1 ci2 :
  StoreInfos ci1 ≡ₚ StoreInfos ci2 → hashPairs ci1 ≡ₚ hashPairs ci2.
Proof. unfold hashPairs. by intros ->. Qed.

(** With a repeated name the mapping keeps the later entry, so whenever the
    Merkle hash tells the two resulting one-entry maps apart, the two orders
    of the same pair of entries hash differently. *)
Lemma Hash_of_repeated_name (name : string) (s1 s2 : StoreCore) (v : Z) :
  let e1 := mkStoreInfo name s1 in
  let e2 := mkStoreInfo name s2 in
  SimpleHashFromMap {[name := perStoreHash e2]}
    ≠ SimpleHashFromMap {[name := perStoreHash e1]} →
  CommitInfo_Hash (mkCommitInfo v [e1; e2]) ≠ CommitInfo_Hash (mkCommitInfo v [e2; e1]).
Proof.
  intros e1 e2 Hsep. rewrite !CommitInfo_Hash_toMap, !toMap_foldl. simpl.
  by rewrite !insert_insert_eq, !insert_empty.
Qed.
End Hashing.

Section HashingExamples.
Import Demo.

(** Two entries with distinct names, in both orders. *)
Lemma Hash_order_independent_witness :
  let sa := mkStoreInfo "a" (mkStoreCore (mkCommitID 1 [x0a])) in
  let sb := mkStoreInfo "b" (mkStoreCore (mkCommitID 1 [x0b])) in
  NoDup (SI_Name <$> [sa; sb]) ∧
  hashPairs (mkCommitInfo 1 [sa; sb])
    ≡ₚ hashPairs (mkCommitInfo 1 [sb; sa]) ∧
  CommitInfo_Hash (mkCommitInfo 1 [sa; sb]) =
  CommitInfo_Hash (mkCommitInfo 1 [sb; sa]).
Proof.
  intros sa sb.
  assert (NoDup (SI_Name <$> [sa; sb])) as Hnd by by_compute.
  assert (hashPairs (mkCommitInfo 1 [sa; sb])
            ≡ₚ hashPairs (mkCommitInfo 1 [sb; sa])) as Hp
    by apply perm_swap.
  split_and!; [exact Hnd | exact Hp |].
  exact (Hash_order_independent (mkCommitInfo 1 [sa; sb]) (mkCommitInfo 1 [sb; sa]) Hnd Hp).
Defined.

(** C2 as stated fails when a name occurs twice: the later entry overwrites
    the earlier one in the mapping, so two orders of the same entries give
    different mappings and different hashes. *)
Lemma Hash_depends_on_order_of_duplicates :
  let s1 := mkStoreInfo "a" (mkStoreCore (mkCommitID 1 [x01])) in
  let s2 := mkStoreInfo "a" (mkStoreCore (mkCommitID 1 [x02])) in
  let ci1 := mkCommitInfo 1 [s1; s2] in
  let ci2 := mkCommitInfo 1 [s2; s1] in
  StoreInfos ci1 ≡ₚ StoreInfos ci2 ∧
  hashPairs ci1 ≡ₚ hashPairs ci2 ∧
  toMap ci1 !! "a" = Some [x02] ∧
  toMap ci2 !! "a" = Some [x01] ∧
  CommitInfo_Hash ci1 ≠
  CommitInfo_Hash ci2.
Proof.
  intros s1 s2 ci1 ci2. split_and!.
  - apply perm_swap.
  - apply perm_swap.
  - reflexivity.
  - reflexivity.
  - intros Heq. vm_compute in Heq. discriminate Heq.
Qed.

(** The two hashing paths of C5 are distinct: on the same CommitInfo the
    mapping holds the raw hash under BEP171 and a re-hash before it. *)
Lemma hash_paths_differ :
  let ci := mkCommitInfo 1 [mkStoreInfo "a" (mkStoreCore (mkCommitID 1 [x07]))] in
  let before : Protocol :=
    {| IsUpgrade := fun _ => false;
       ShouldCommitStore := ShouldCommitStore (Protocol:=protocol);
       ShouldSetStoreVersion := ShouldSetStoreVersion (Protocol:=protocol);
       RequireProof := RequireProof (Protocol:=protocol);
       ABCICode := ABCICode (Protocol:=protocol);
       ABCILog := ABCILog (Protocol:=protocol) |} in
  toMap (H1:=protocol) ci !! "a" = Some [x07] ∧
  toMap (H1:=before) ci !! "a"
    = Some (tmhash_Sum (MarshalStoreCore (mkStoreCore (mkCommitID 1 [x07])))) ∧
  CommitInfo_Hash (H1:=protocol) ci ≠ CommitInfo_Hash (H1:=before) ci.
Proof.
  intros ci before. split_and!; [reflexivity | reflexivity |].
  intros Heq. vm_compute in Heq. discriminate Heq.
Qed.
End HashingExamples.

(** ** Proof construction *)

Section ProofOp.
Context `{Merkle} `{Codec} `{Protocol} `{!MerkleLaws}.

(** C6: when [s] is a key of the name→hash mapping of [ci], [ProofOp]
    returns an existence proof for [s] whose leaf value is the per-store
    hash recorded in [ci] for [s] and whose root is [ci.Hash()]; when [s]
    is not a key, [ProofOp] panics. *)
Theorem ProofOp_valid (ci : CommitInfo) (s : string) :
  (∀ h, toMap ci !! s = Some h →
     ∃ si ep,
       recorded s (StoreInfos ci) = Some si ∧
       CommitInfo_ProofOp ci s =
         Ret (SimpleMerkleCommitmentOp (bytes_of_string s) (CommitmentProof_Exist ep)) ∧
       ep_Key ep = bytes_of_string s ∧
       ep_Value ep = h ∧
       h = perStoreHash si ∧
       ep_Root ep = CommitInfo_Hash ci)
  ∧ (toMap ci !! s = None → panics (CommitInfo_ProofOp ci s)).
Proof.
  unfold CommitInfo_ProofOp.
  pose proof (proofs_keys (toMap ci) s) as Hkeys.
  pose proof (proofs_root (toMap ci) s) as Hroot.
  destruct (SimpleProofsFromMap (toMap ci)) as [[r proofs] keys].
  simpl in Hkeys, Hroot. split.
  - intros h Hh.
    destruct (proofs !! s) as [p|] eqn:Hp.
    2: { destruct Hkeys as [_ Hk]. destruct Hk as [? [=]]. by exists h. }
    pose proof (toMap_lookup ci s) as Hrec. rewrite Hh in Hrec.
    destruct (recorded s (StoreInfos ci)) as [si|] eqn:Hsi; [|done].
    injection Hrec as ->.
    exists si, (mkExistenceProof (bytes_of_string s) (perStoreHash si)
                  (ComputeRootHash p) p).
    rewrite Hh. simpl. split_and!; try done.
    rewrite CommitInfo_Hash_toMap. by apply Hroot.
  - intros Hnone.
    destruct (proofs !! s) as [p|] eqn:Hp.
    + destruct Hkeys as [Hk _]. destruct Hk as [? [=]]; [by exists p|].
      congruence.
    + apply panics_Panic.
Qed.
End ProofOp.

#[export] Instance Demo_merkle_laws : MerkleLaws (H:=Demo.merkle).
Proof.
  split; simpl.
  - intros m k. rewrite lookup_fmap. apply fmap_is_Some.
  - intros m k p. rewrite lookup_fmap.
    destruct (m !! k); simpl; [by intros [= <-] | done].
Qed.

Section ProofOpExamples.
Import Demo.

(** The proof for [a] in a CommitInfo of two stores. *)
Lemma ProofOp_valid_witness :
  let ci := mkCommitInfo 1 [mkStoreInfo "a" (mkStoreCore (mkCommitID 1 [x0a]));
                            mkStoreInfo "b" (mkStoreCore (mkCommitID 1 [x0b]))] in
  (∀ h, toMap ci !! "a" = Some h →
     ∃ si ep,
       recorded "a" (StoreInfos ci) = Some si ∧
       CommitInfo_ProofOp ci "a" =
         Ret (SimpleMerkleCommitmentOp (bytes_of_string "a") (CommitmentProof_Exist ep)) ∧
       ep_Key ep = bytes_of_string "a" ∧
       ep_Value ep = h ∧
       h = perStoreHash si ∧
       ep_Root ep = CommitInfo_Hash ci)
  ∧ (toMap ci !! "a" = None → panics (CommitInfo_ProofOp ci "a")).
Proof. intros ci. exact (ProofOp_valid ci "a"). Defined.

Lemma ProofOp_unknown_store_panics :
  CommitInfo_ProofOp
    (mkCommitInfo 1 [mkStoreInfo "a" (mkStoreCore (mkCommitID 1 [x0a]))]) "c"
  = Panic "ProofOp for c but not registered store name".
Proof. reflexivity. Qed.
End ProofOpExamples.

(** ** Loading *)

Section Loading.
Context `{Merkle} `{Codec} `{Protocol} {S : Type} `{!CommitStoreOps S}.
Implicit Types (rs : rootMultiStore S) (ps : list (StoreKey * storeParams)).

Lemma nameToKey_range_Ret ps name key :
  nameToKey_range ps name = Ret key → key ∈ ps.*1 ∧ Name key = name.
Proof.
  induction ps as [|[k p] ps IH]; simpl; [done|].
  case_decide as Hk.
  - intros [= <-]. split; [left | done].
  - intros [Hin Hn]%IH. split; [by right | done].
Qed.

Lemma nameToKey_range_known ps name :
  name ∈ Name <$> ps.*1 → ∃ key, nameToKey_range ps name = Ret key.
Proof.
  induction ps as [|[k p] ps IH]; csimpl.
  - by intros ?%elem_of_nil.
  - case_decide as Hk; [by eexists|].
    rewrite elem_of_cons. intros [->|Hin]; [done | by apply IH].
Qed.

Lemma nameToKey_range_unknown ps name :
  name ∉ Name <$> ps.*1 →
  nameToKey_range ps name = Panic ("Unknown name " +:+ name).
Proof.
  induction ps as [|[k p] ps IH]; csimpl; [done|].
  rewrite not_elem_of_cons. intros [Hne Hnot].
  case_decide; [done | by apply IH].
Qed.

Lemma infos_range_unknown rs sis infos si :
  si ∈ sis → SI_Name si ∉ Name <$> (storesParams rs).*1 →
  panics (infos_range rs sis infos).
Proof.
  intros Hin Hnot. revert infos.
  induction sis as [|si' sis IH]; intros infos; simpl.
  - by apply elem_of_nil in Hin.
  - destruct (nameToKey rs (SI_Name si')) as [key|msg] eqn:Hkey; simpl.
    + apply elem_of_cons in Hin as [->|Hin]; [|by apply IH].
      unfold nameToKey in Hkey.
      by rewrite nameToKey_range_unknown in Hkey.
    + apply panics_Panic.
Qed.

Lemma infos_range_known rs sis infos :
  (∀ si, si ∈ sis → SI_Name si ∈ Name <$> (storesParams rs).*1) →
  ∃ infos', infos_range rs sis infos = Ret infos'.
Proof.
  revert infos. induction sis as [|si sis IH]; intros infos Hall; simpl.
  - by eexists.
  - destruct (nameToKey_range_known (storesParams rs) (SI_Name si)) as [key Hkey].
    { apply Hall. left. }
    unfold nameToKey. rewrite Hkey. simpl.
    apply IH. intros si' ?. apply Hall. by right.
Qed.

(** C10: for a version above 0 whose persisted CommitInfo names a store
    that is not mounted, [LoadVersion] panics; it does not return an
    error. *)
Theorem LoadVersion_unknown_name_panics rs (ver : Z) (cInfo : CommitInfo)
    (si : StoreInfo) :
  0 < ver →
  getCommitInfo (db rs) ver = OK cInfo →
  si ∈ StoreInfos cInfo →
  (∀ key, key ∈ (storesParams rs).*1 → Name key ≠ SI_Name si) →
  panics (LoadVersion rs ver) ∧ ∀ rs' err, LoadVersion rs ver ≠ Ret (rs', err).
Proof.
  intros Hver Hget Hin Hnot.
  assert (panics (LoadVersion rs ver)) as Hp.
  { unfold LoadVersion. rewrite decide_False by lia. rewrite Hget.
    destruct (infos_range_unknown rs (StoreInfos cInfo) ∅ si Hin) as [msg ->].
    - intros (key & Hn & Hk)%list_elem_of_fmap. by apply (Hnot key).
    - apply panics_Panic. }
  split; [done|]. intros rs' err. by apply panics_not_Ret.
Qed.

(** For a version other than 0 the load is all-or-nothing: a returned
    error leaves the multi-store as it was. *)
Lemma LoadVersion_error_keeps_state rs (ver : Z) rs' e :
  ver ≠ 0 → LoadVersion rs ver = Ret (rs', Some e) → rs' = rs.
Proof.
  intros Hver. unfold LoadVersion. rewrite decide_False by done.
  destruct (getCommitInfo (db rs) ver) as [cInfo|msg]; [|by intros [= <- _]].
  destruct (infos_range rs (StoreInfos cInfo) ∅) as [infos|]; simpl; [|done].
  destruct (newStores_range rs infos (storesParams rs) []) as [[ns|msg]|];
    simpl; [done | by intros [= <- _] | done].
Qed.

Lemma loadVersion0_range_ok rs ps (st : list (StoreKey * S)) :
  Forall (fun kp => ∃ s, loadCommitStoreFromParams rs kp.1 zeroCommitID kp.2
                         = Ret (OK s)) ps →
  ∃ st', loadVersion0_range rs ps st = Ret (st', None) ∧
    (∀ k, k ∈ ps.*1 → ∃ p s, (k, p) ∈ ps ∧
        loadCommitStoreFromParams rs k zeroCommitID p = Ret (OK s) ∧
        mapGet k st' = Some s) ∧
    (∀ k, k ∉ ps.*1 → mapGet k st' = mapGet k st).
Proof.
  revert st. induction ps as [|[k0 p0] ps IH]; intros st Hall; csimpl.
  - exists st. split_and!; [done | by intros k ?%elem_of_nil | done].
  - apply Forall_cons in Hall as [[s0 Hs0] Hall]. simpl in Hs0.
    rewrite Hs0. simpl.
    destruct (IH (mapSet k0 s0 st) Hall) as (st' & Hrun & Hin & Hout).
    exists st'. split_and!; [done | |].
    + intros k Hk. destruct (decide (k ∈ ps.*1)) as [Hps|Hps].
      * destruct (Hin k Hps) as (p & s & ? & ? & ?).
        exists p, s. split_and!; [by right | done | done].
      * apply elem_of_cons in Hk as [->|?]; [|done].
        exists p0, s0. split_and!; [left | done |].
        rewrite (Hout k0 Hps), mapGet_mapSet. by rewrite decide_True.
    + intros k [Hne Hk]%not_elem_of_cons.
      rewrite (Hout k Hk), mapGet_mapSet. by rewrite decide_False.
Qed.

Lemma loadVersion0_range_ext rs1 rs2 ps (st : list (StoreKey * S)) :
  (∀ k p, (k, p) ∈ ps →
     loadCommitStoreFromParams rs1 k zeroCommitID p
     = loadCommitStoreFromParams rs2 k zeroCommitID p) →
  loadVersion0_range rs1 ps st = loadVersion0_range rs2 ps st.
Proof.
  revert st. induction ps as [|[k0 p0] ps IH]; intros st Hext; simpl; [done|].
  rewrite (Hext k0 p0) by left.
  destruct (loadCommitStoreFromParams rs2 k0 zeroCommitID p0) as [[s|e]|];
    simpl; [|done..].
  apply IH. intros k p ?. apply Hext. by right.
Qed.

Lemma newStores_range_ok rs infos ps (st : list (StoreKey * S)) :
  Forall (fun kp => ∃ s, loadCommitStoreFromParams rs kp.1
                           (resolvedCommitID infos kp.1) kp.2 = Ret (OK s)) ps →
  ∃ ns, newStores_range rs infos ps st = Ret (OK ns).
Proof.
  revert st. induction ps as [|[k0 p0] ps IH]; intros st Hall; simpl.
  - by eexists.
  - apply Forall_cons in Hall as [[s0 Hs0] Hall]. unfold resolvedCommitID in Hs0.
    simpl in Hs0. rewrite Hs0. simpl. by apply IH.
Qed.

(** C8: when every mounted store can be instantiated at the zero
    CommitID, [LoadVersion(0)] succeeds whatever the database holds: it
    instantiates each mounted store at the zero CommitID and leaves
    [LastCommitID()] at the zero CommitID. The database matters to it only
    through those instantiations: no CommitInfo record is read. And
    [LoadLatestVersion()] is [LoadVersion(0)] when the "s/latest" pointer
    is absent. *)
Theorem LoadVersion_zero_genesis rs :
  Forall (fun kp => ∃ s, loadCommitStoreFromParams rs kp.1 zeroCommitID kp.2
                         = Ret (OK s)) (storesParams rs) →
  (∃ rs', LoadVersion rs 0 = Ret (rs', None) ∧
     LastCommitID rs' = zeroCommitID ∧
     (∀ k, k ∈ (storesParams rs).*1 → ∃ p s, (k, p) ∈ storesParams rs ∧
         loadCommitStoreFromParams rs k zeroCommitID p = Ret (OK s) ∧
         mapGet k (stores rs') = Some s) ∧
     db rs' = db rs ∧
     (∀ d', (∀ k p, (k, p) ∈ storesParams rs →
               loadCommitStoreFromParams (set_db rs d') k zeroCommitID p
               = loadCommitStoreFromParams rs k zeroCommitID p) →
            LoadVersion (set_db rs d') 0 = Ret (set_db rs' d', None)))
  ∧ (db rs !! latestVersionKey = None → LoadLatestVersion rs = LoadVersion rs 0).
Proof.
  intros Hall. split.
  - destruct (loadVersion0_range_ok rs (storesParams rs) (stores rs) Hall)
      as (st' & Hrun & Hin & _).
    exists (set_lastCommitID (set_stores rs st') zeroCommitID).
    unfold LoadVersion. rewrite decide_True by done. rewrite Hrun. simpl.
    split_and!; [done | done | exact Hin | done |].
    intros d' Hext.
    rewrite (loadVersion0_range_ext (set_db rs d') rs) by exact Hext.
    simpl. by rewrite Hrun.
  - intros Hnone. unfold LoadLatestVersion, getLatestVersion.
    by rewrite Hnone.
Qed.
End Loading.

Section LoadingExamples.
Import Demo.

(** The database of [rsT] records [a] at version 1, and [rsT] mounts only [t]. *)
Lemma LoadVersion_unknown_name_panics_witness :
  panics (LoadVersion rsT 1) ∧ ∀ rs' err, LoadVersion rsT 1 ≠ Ret (rs', err).
Proof.
  apply (LoadVersion_unknown_name_panics rsT 1
           (mkCommitInfo 1 [mkStoreInfo "a" (mkStoreCore (mkCommitID 1 [x02]))])
           (mkStoreInfo "a" (mkStoreCore (mkCommitID 1 [x02])))).
  - lia.
  - vm_compute. reflexivity.
  - left.
  - intros key Hin. vm_compute in Hin.
    apply list_elem_of_singleton in Hin as ->. discriminate.
Defined.

Lemma LoadVersion_unknown_name_message :
  LoadVersion rsT 1 = Panic "Unknown name a".
Proof. vm_compute. reflexivity. Qed.

(** Both stores of [rsAT] can be instantiated. *)
Lemma LoadVersion_zero_genesis_witness :
  (∃ rs', LoadVersion rsAT 0 = Ret (rs', None) ∧
     LastCommitID rs' = zeroCommitID ∧
     (∀ k, k ∈ (storesParams rsAT).*1 → ∃ p s, (k, p) ∈ storesParams rsAT ∧
         loadCommitStoreFromParams rsAT k zeroCommitID p = Ret (OK s) ∧
         mapGet k (stores rs') = Some s) ∧
     db rs' = db rsAT ∧
     (∀ d', (∀ k p, (k, p) ∈ storesParams rsAT →
               loadCommitStoreFromParams (set_db rsAT d') k zeroCommitID p
               = loadCommitStoreFromParams rsAT k zeroCommitID p) →
            LoadVersion (set_db rsAT d') 0 = Ret (set_db rs' d', None)))
  ∧ (db rsAT !! latestVersionKey = None → LoadLatestVersion rsAT = LoadVersion rsAT 0).
Proof.
  apply (LoadVersion_zero_genesis rsAT).
  repeat constructor; eexists; vm_compute; reflexivity.
Defined.

(** C1 at version 0: [a] loads, then [b] fails; [LoadVersion(0)] returns
    the error with the store of [a] already assigned into a store map that
    was empty before the call. *)
Lemma LoadVersion_zero_partial_install :
  stores rsAB = [] ∧
  LoadVersion rsAB 0 =
    Ret (set_stores rsAB [(keyA, mkStore StoreTypeIAVL zeroCommitID [])],
         Some "failed to load rootMultiStore: invalid StoreKey for StoreTypeTransient: KVStoreKey{b}") ∧
  ∀ rs' e, LoadVersion rsAB 0 = Ret (rs', Some e) → stores rs' ≠ stores rsAB.
Proof.
  assert (LoadVersion rsAB 0 =
    Ret (set_stores rsAB [(keyA, mkStore StoreTypeIAVL zeroCommitID [])],
         Some "failed to load rootMultiStore: invalid StoreKey for StoreTypeTransient: KVStoreKey{b}"))
    as Hrun by (vm_compute; reflexivity).
  split_and!; [reflexivity | exact Hrun |].
  intros rs' e. rewrite Hrun. intros [= <- _]. discriminate.
Qed.

(** The same mount loaded at a version above 0 fails without touching the
    store map. *)
Lemma LoadVersion_nonzero_no_install :
  ∃ e, LoadVersion (mount keyB StoreTypeTransient
                      (mount keyA StoreTypeIAVL (NewCommitMultiStore (db rsAT1)))) 1
       = Ret (mount keyB StoreTypeTransient
                (mount keyA StoreTypeIAVL (NewCommitMultiStore (db rsAT1))), Some e).
Proof. eexists. vm_compute. reflexivity. Qed.
End LoadingExamples.

(** ** Committing *)

Section Committing.
Context `{Merkle} `{Codec} `{Protocol} {S : Type} `{!CommitStoreOps S}.
Implicit Types (rs : rootMultiStore S) (sm : list (StoreKey * S)).

Lemma recordsCommitOf_cons version kb ka before after si :
  recordsCommitOf version before after si →
  recordsCommitOf version (kb :: before) (ka :: after) si.
Proof.
  intros (key & store & store' & ? & ? & ? & ? & ? & ?).
  exists key, store, store'. split_and!; [by right | by right | done..].
Qed.

Lemma commitStores_range_spec version sm acc sis sm' :
  commitStores_range version sm acc = Ret (sis, sm') →
  sm'.*1 = sm.*1 ∧
  ∃ new, sis = acc ++ new ∧
    SI_Name <$> new = Name <$> (filter participates sm').*1 ∧
    Forall (recordsCommitOf version sm sm') new.
Proof.
  revert acc sis sm'.
  induction sm as [|[key store] sm IH]; intros acc sis sm'; simpl.
  - intros [= <- <-]. split; [done|]. exists []. by rewrite app_nil_r.
  - destruct (ShouldCommitStore (Name key)) eqn:Hpol; simpl.
    + destruct (store_Commit _) as [[commitID store2]|] eqn:Hcommit; simpl; [|done].
      case_decide as Htyp.
      * destruct (commitStores_range version sm acc) as [[sis0 rest']|] eqn:Hrest;
          simpl; [|done].
        intros [= <- <-].
        destruct (IH _ _ _ Hrest) as (Hkeys & new & -> & Hnames & Hall).
        split; [csimpl; by rewrite Hkeys|].
        exists new. split_and!; [done | |].
        -- rewrite filter_cons_False; [done|]. by intros [_ ?].
        -- eapply Forall_impl; [exact Hall|]. intros si. apply recordsCommitOf_cons.
      * destruct (commitStores_range version sm _) as [[sis0 rest']|] eqn:Hrest;
          simpl; [|done].
        intros [= <- <-].
        destruct (IH _ _ _ Hrest) as (Hkeys & new & -> & Hnames & Hall).
        split; [csimpl; by rewrite Hkeys|].
        exists (mkStoreInfo (Name key) (mkStoreCore commitID) :: new).
        split_and!; [by rewrite <-app_assoc | |].
        -- rewrite filter_cons_True by done. csimpl. by rewrite Hnames.
        -- apply Forall_cons. split.
           ++ exists key, store, store2. split_and!; try done; left.
           ++ eapply Forall_impl; [exact Hall|]. intros si.
              apply recordsCommitOf_cons.
    + destruct (commitStores_range version sm acc) as [[sis0 rest']|] eqn:Hrest;
        simpl; [|done].
      intros [= <- <-].
      destruct (IH _ _ _ Hrest) as (Hkeys & new & -> & Hnames & Hall).
      split; [csimpl; by rewrite Hkeys|].
      exists new. split_and!; [done | |].
      * rewrite filter_cons_False; [done|]. intros [Hp _]. simpl in Hp. congruence.
      * eapply Forall_impl; [exact Hall|]. intros si. apply recordsCommitOf_cons.
Qed.

Lemma commitStores_spec version sm ci sm' :
  commitStores version sm = Ret (ci, sm') →
  CI_Version ci = version ∧
  sm'.*1 = sm.*1 ∧
  SI_Name <$> StoreInfos ci = Name <$> (filter participates sm').*1 ∧
  Forall (recordsCommitOf version sm sm') (StoreInfos ci).
Proof.
  unfold commitStores.
  destruct (commitStores_range version sm []) as [[sis rest']|] eqn:Hrun;
    simpl; [|done].
  intros [= <- <-].
  destruct (commitStores_range_spec _ _ _ _ _ Hrun) as (Hkeys & new & -> & ? & ?).
  done.
Qed.

(** What one [Commit()] does to the multi-store. *)
Lemma Commit_inv rs rs' id :
  Commit rs = Ret (rs', id) →
  let version := int64_add (Version (lastCommitID rs)) 1 in
  ∃ ci bz,
    commitStores version (stores rs) = Ret (ci, stores rs') ∧
    MarshalCommitInfo ci = OK bz ∧
    db rs' = <[latestVersionKey := MarshalInt64 version]>
               (<[commitInfoKey version := bz]> (db rs)) ∧
    id = mkCommitID version (CommitInfo_Hash ci) ∧
    lastCommitID rs' = id ∧
    storesParams rs' = storesParams rs ∧
    keysByName rs' = keysByName rs ∧
    pruning rs' = pruning rs.
Proof.
  intros Hrun version. unfold Commit in Hrun. cbv zeta in Hrun.
  fold version in Hrun.
  destruct (commitStores version (stores rs)) as [[ci st']|] eqn:Hcs;
    simpl in Hrun; [|done].
  unfold setCommitInfo in Hrun.
  destruct (MarshalCommitInfo ci) as [bz|] eqn:Hbz; simpl in Hrun; [|done].
  injection Hrun as <- <-.
  exists ci, bz. by split_and!.
Qed.

Lemma getCommitInfo_insert_latest (d : DB) bz ver :
  getCommitInfo (<[latestVersionKey := bz]> d) ver = getCommitInfo d ver.
Proof.
  unfold getCommitInfo.
  rewrite lookup_insert_ne; [done|]. intros Heq.
  by apply (commitInfoKey_not_latest ver).
Qed.

Lemma getCommitInfo_insert_other (d : DB) bz v ver :
  v ≠ ver →
  getCommitInfo (<[commitInfoKey v := bz]> d) ver = getCommitInfo d ver.
Proof.
  intros Hne. unfold getCommitInfo.
  rewrite lookup_insert_ne; [done|]. by intros ?%commitInfoKey_inj.
Qed.

Lemma getCommitInfo_insert_same `{!CodecLaws} (d : DB) ci bz ver :
  MarshalCommitInfo ci = OK bz →
  getCommitInfo (<[commitInfoKey ver := bz]> d) ver = OK ci.
Proof.
  intros Hbz. unfold getCommitInfo.
  by rewrite lookup_insert_eq, (CommitInfo_round_trip ci bz).
Qed.

(** The record that a commit persists can be read back under its version. *)
Lemma Commit_persists `{!CodecLaws} rs rs' id :
  Commit rs = Ret (rs', id) →
  ∃ ci, getCommitInfo (db rs') (Version id) = OK ci ∧
        CI_Version ci = Version id ∧
        id = CommitInfo_CommitID ci ∧
        commitStores (Version id) (stores rs) = Ret (ci, stores rs').
Proof.
  intros (ci & bz & Hcs & Hbz & Hdb & -> & _)%Commit_inv.
  exists ci. simpl.
  destruct (commitStores_spec _ _ _ _ Hcs) as (Hv & _).
  rewrite Hdb, getCommitInfo_insert_latest.
  rewrite (getCommitInfo_insert_same _ ci) by done.
  split_and!; [done | done | | done].
  unfold CommitInfo_CommitID. by rewrite Hv.
Qed.
End Committing.

(** ** The invariant of the store maps *)

Lemma NoDup_fmap_inj_on {A B} (f : A → B) (l : list A) x y :
  NoDup (f <$> l) → x ∈ l → y ∈ l → f x = f y → x = y.
Proof.
  induction l as [|a l IH]; csimpl.
  - by intros _ ?%elem_of_nil.
  - rewrite NoDup_cons, !elem_of_cons. intros [Ha Hnd] [->|Hx] [->|Hy] Hf.
    + done.
    + exfalso. apply Ha. rewrite Hf. apply list_elem_of_fmap. eauto.
    + exfalso. apply Ha. rewrite <-Hf. apply list_elem_of_fmap. eauto.
    + by apply IH.
Qed.

Section Invariant.
Context `{Merkle} `{Codec} `{Protocol} {S : Type} `{!CommitStoreOps S}.
Implicit Types (rs : rootMultiStore S) (ps : list (StoreKey * storeParams)).

Lemma wf_New (d : DB) : wf (NewCommitMultiStore (S:=S) d).
Proof.
  split; simpl.
  - apply NoDup_nil_2.
  - apply NoDup_nil_2.
  - apply NoDup_nil_2.
  - done.
  - intros n k. rewrite lookup_empty. split; [done|].
    by intros [?%elem_of_nil _].
Qed.

Lemma wf_Mount rs key typ d rs' :
  wf rs → MountStoreWithDB rs key typ d = Ret rs' → wf rs'.
Proof.
  intros [Hpk Hpn Hsk Hsm Hidx]. unfold MountStoreWithDB.
  destruct key as [key|]; [|done].
  destruct (mapGet key (storesParams rs)) eqn:Hget; [done|].
  destruct (keysByName rs !! Name key) eqn:Hname; [done|].
  intros [= <-]. apply mapGet_None in Hget.
  assert (Name key ∉ Name <$> (storesParams rs).*1) as Hfresh.
  { intros (k' & Hn & Hk')%list_elem_of_fmap.
    assert (keysByName rs !! Name key = Some k') as Hsome by (by apply Hidx).
    congruence. }
  split; simpl.
  - by apply mapSet_NoDup.
  - rewrite mapSet_keys, decide_False by done.
    rewrite fmap_app. apply NoDup_app. split_and!; [done | | apply NoDup_singleton].
    intros n Hn ->%list_elem_of_singleton. done.
  - done.
  - intros k Hk. apply elem_of_mapSet_keys. right. by apply Hsm.
  - intros n k. rewrite elem_of_mapSet_keys, lookup_insert. case_decide as Hn.
    + split.
      * intros [= <-]. by split; [left|].
      * intros [[->|Hk] Hnk]; [done|].
        exfalso. apply Hfresh, list_elem_of_fmap. exists k. by rewrite Hn.
    + rewrite Hidx. split.
      * intros [? ?]. by split; [right|].
      * intros [[->|Hk] Hnk]; [done | by split].
Qed.

Lemma loadVersion0_range_keys rs ps (st st' : list (StoreKey * S)) err :
  loadVersion0_range rs ps st = Ret (st', err) →
  NoDup st.*1 →
  NoDup st'.*1 ∧ ∀ k, k ∈ st'.*1 → k ∈ st.*1 ∨ k ∈ ps.*1.
Proof.
  revert st. induction ps as [|[k0 p0] ps IH]; intros st; csimpl.
  - intros [= <- <-]. auto.
  - destruct (loadCommitStoreFromParams rs k0 zeroCommitID p0) as [[s|e]|];
      simpl; [| intros [= <- <-]; auto | done].
    intros Hrun Hnd.
    destruct (IH _ Hrun (mapSet_NoDup k0 s st Hnd)) as [Hnd' Hsub].
    split; [done|]. intros k Hk.
    destruct (Hsub k Hk) as [[->|?]%elem_of_mapSet_keys|?].
    + right. left.
    + by left.
    + right. by right.
Qed.

Lemma newStores_range_keys rs infos ps (st st' : list (StoreKey * S)) :
  newStores_range rs infos ps st = Ret (OK st') →
  NoDup st.*1 →
  NoDup st'.*1 ∧ ∀ k, k ∈ st'.*1 → k ∈ st.*1 ∨ k ∈ ps.*1.
Proof.
  revert st. induction ps as [|[k0 p0] ps IH]; intros st; csimpl.
  - intros [= <-]. auto.
  - destruct (loadCommitStoreFromParams rs k0 _ p0) as [[s|e]|];
      simpl; [| done | done].
    intros Hrun Hnd.
    destruct (IH _ Hrun (mapSet_NoDup k0 s st Hnd)) as [Hnd' Hsub].
    split; [done|]. intros k Hk.
    destruct (Hsub k Hk) as [[->|?]%elem_of_mapSet_keys|?].
    + right. left.
    + by left.
    + right. by right.
Qed.

Lemma wf_LoadVersion rs ver rs' err :
  wf rs → LoadVersion rs ver = Ret (rs', err) → wf rs'.
Proof.
  intros Hwf. pose proof Hwf as [Hpk Hpn Hsk Hsm Hidx]. unfold LoadVersion.
  case_decide as Hver.
  - destruct (loadVersion0_range rs (storesParams rs) (stores rs))
      as [[st e]|] eqn:Hrun; simpl; [|done].
    destruct (loadVersion0_range_keys _ _ _ _ _ Hrun Hsk) as [Hnd Hsub].
    assert (wf (set_stores rs st)) as Hwf'.
    { split; simpl; try done.
      intros k Hk. destruct (Hsub k Hk); [by apply Hsm | done]. }
    destruct e; intros [= <- <-]; [done|].
    destruct Hwf'. by split.
  - destruct (getCommitInfo (db rs) ver) as [cInfo|msg]; [|by intros [= <- <-]].
    destruct (infos_range rs (StoreInfos cInfo) ∅) as [infos|]; simpl; [|done].
    destruct (newStores_range rs infos (storesParams rs) []) as [[ns|msg]|] eqn:Hrun;
      simpl; [| by intros [= <- <-] | done].
    intros [= <- <-].
    destruct (newStores_range_keys _ _ _ _ _ Hrun (NoDup_nil_2)) as [Hnd Hsub].
    split; simpl; try done.
    intros k Hk. destruct (Hsub k Hk) as [?%elem_of_nil|?]; done.
Qed.

Lemma wf_Commit rs rs' id : wf rs → Commit rs = Ret (rs', id) → wf rs'.
Proof.
  intros [Hpk Hpn Hsk Hsm Hidx].
  intros (ci & bz & Hcs & _ & _ & _ & _ & Hps & Hidx' & _)%Commit_inv.
  destruct (commitStores_spec _ _ _ _ Hcs) as (_ & Hkeys & _).
  split; rewrite ?Hps, ?Hidx', ?Hkeys; done.
Qed.

(** Every multi-store assembled through its operations is well formed. *)
Lemma reachable_wf rs : reachable rs → wf rs.
Proof.
  induction 1 as [d | rs key typ d rs' _ IH Hm | rs ver rs' err _ IH Hl
                  | rs rs' id _ IH Hc].
  - apply wf_New.
  - by eapply wf_Mount.
  - by eapply wf_LoadVersion.
  - by eapply wf_Commit.
Qed.

Lemma wf_store_names rs : wf rs → NoDup (Name <$> (stores rs).*1).
Proof.
  intros [Hpk Hpn Hsk Hsm Hidx].
  apply NoDup_fmap_2_strong; [|done].
  intros x y Hx Hy. apply (NoDup_fmap_inj_on Name (storesParams rs).*1); auto.
Qed.
End Invariant.

Section CommitProperties.
Context `{Merkle} `{Codec} `{Protocol} {S : Type} `{!CommitStoreOps S}.
Context `{!CodecLaws}.
Implicit Types (rs : rootMultiStore S).

(** C9: the CommitInfo that [Commit()] produces and persists has one entry
    per live store that takes part in the commitments (name accepted by the
    commit policy, type not Transient), under pairwise distinct names, and
    every entry records the CommitID returned by the [Commit()] of a store
    that is not transient. *)
Theorem Commit_store_infos rs rs' (id : CommitID) :
  reachable rs →
  Commit rs = Ret (rs', id) →
  ∃ ci,
    getCommitInfo (db rs') (Version id) = OK ci ∧
    id = CommitInfo_CommitID ci ∧
    SI_Name <$> StoreInfos ci = Name <$> (filter participates (stores rs')).*1 ∧
    NoDup (SI_Name <$> StoreInfos ci) ∧
    Forall (recordsCommitOf (Version id) (stores rs) (stores rs')) (StoreInfos ci).
Proof.
  intros Hreach Hc.
  assert (wf rs') as Hwf' by (eapply wf_Commit; [by apply reachable_wf | done]).
  destruct (Commit_persists _ _ _ Hc) as (ci & Hget & Hv & Hid & Hcs).
  destruct (commitStores_spec _ _ _ _ Hcs) as (_ & Hkeys & Hnames & Hall).
  exists ci. split_and!; [done | done | done | | done].
  rewrite Hnames.
  assert (Name <$> (filter participates (stores rs')).*1
            `sublist_of` Name <$> (stores rs').*1) as Hsub.
  { do 2 apply fmap_sublist. apply sublist_filter. }
  pose proof (wf_store_names rs' Hwf') as Hnd.
  exact (sublist_NoDup _ _ Hnd Hsub).
Qed.

(** The pointer that a commit persists is the version it produced. *)
Lemma Commit_latest rs rs' id :
  Commit rs = Ret (rs', id) → getLatestVersion (db rs') = Ret (Version id).
Proof.
  intros (ci & bz & _ & _ & Hdb & -> & _)%Commit_inv.
  unfold getLatestVersion. rewrite Hdb, lookup_insert_eq.
  by rewrite Int64_round_trip.
Qed.

Lemma Commit_readable rs rs' id :
  Commit rs = Ret (rs', id) → readable (db rs') (Version id).
Proof.
  intros (ci & ? & ? & ? & ?)%Commit_persists. by exists ci.
Qed.

Lemma Commit_keeps_readable rs rs' id ver :
  Commit rs = Ret (rs', id) → readable (db rs) ver → readable (db rs') ver.
Proof.
  intros Hc Hr. destruct (decide (Version id = ver)) as [<-|Hne].
  - by eapply Commit_readable.
  - destruct (Commit_inv _ _ _ Hc) as (ci & bz & _ & _ & Hdb & -> & _).
    destruct Hr as (ci0 & Hget & Hv). exists ci0. split; [|done].
    rewrite Hdb, getCommitInfo_insert_latest.
    by rewrite getCommitInfo_insert_other.
Qed.

Lemma Commits_keeps_readable (n : nat) rs rs' ver :
  Commits n rs = Ret rs' → readable (db rs) ver → readable (db rs') ver.
Proof.
  revert rs. induction n as [|n IH]; intros rs; simpl.
  - by intros [= <-].
  - destruct (Commit rs) as [[rs1 id]|] eqn:Hc; simpl; [|done].
    intros Hrun Hr. apply (IH rs1); [done|]. by eapply Commit_keeps_readable.
Qed.

Lemma Commit_version rs rs' id :
  Commit rs = Ret (rs', id) →
  Version id = wrap64 (Version (lastCommitID rs) + 1) ∧ lastCommitID rs' = id.
Proof.
  intros (ci & bz & _ & _ & _ & -> & ? & _)%Commit_inv. done.
Qed.

Lemma Commits_spec (n : nat) rs rs' :
  MinInt64 ≤ Version (lastCommitID rs) ≤ MaxInt64 →
  Commits n rs = Ret rs' →
  Version (lastCommitID rs') = wrap64 (Version (lastCommitID rs) + Z.of_nat n) ∧
  ∀ i : nat, (1 ≤ i ≤ n)%nat →
    readable (db rs') (wrap64 (Version (lastCommitID rs) + Z.of_nat i)).
Proof.
  revert rs. induction n as [|n IH]; intros rs Hrange; simpl.
  - intros [= <-]. split; [|lia].
    by rewrite Z.add_0_r, wrap64_id.
  - destruct (Commit rs) as [[rs1 id]|] eqn:Hc; simpl; [|done].
    intros Hrun.
    destruct (Commit_version _ _ _ Hc) as [Hv Hlast].
    assert (MinInt64 ≤ Version (lastCommitID rs1) ≤ MaxInt64) as Hrange1.
    { rewrite Hlast, Hv. apply wrap64_range. }
    destruct (IH rs1 Hrange1 Hrun) as [Hfinal Hread].
    rewrite Hlast, Hv in Hfinal, Hread. split.
    + rewrite Hfinal, wrap64_add_l. f_equal. lia.
    + intros i Hi. destruct (decide (i = 1%nat)) as [->|Hne].
      * apply (Commits_keeps_readable n rs1); [done|].
        change (Z.of_nat 1) with 1. rewrite <-Hv. by eapply Commit_readable.
      * specialize (Hread (i - 1)%nat). rewrite wrap64_add_l in Hread.
        replace (Version (lastCommitID rs) + 1 + Z.of_nat (i - 1))
          with (Version (lastCommitID rs) + Z.of_nat i) in Hread by lia.
        apply Hread. lia.
Qed.

(** C4: after [n] successful [Commit()] calls from version [v0] the last
    commit version is [v0 + n], the sum being that of int64: it is the
    integer [v0 + n] as long as that does not exceed the largest int64. The
    CommitInfo record of each version [v0 + 1 .. v0 + n] is read back by
    [getCommitInfo], carrying that version. *)
Theorem Commits_monotone (n : nat) rs rs' :
  MinInt64 ≤ Version (lastCommitID rs) ≤ MaxInt64 →
  Commits n rs = Ret rs' →
  let v0 := Version (lastCommitID rs) in
  Version (LastCommitID rs') = int64_add v0 (Z.of_nat n) ∧
  (∀ i : nat, (1 ≤ i ≤ n)%nat →
     ∃ ci, getCommitInfo (db rs') (int64_add v0 (Z.of_nat i)) = OK ci ∧
           CI_Version ci = int64_add v0 (Z.of_nat i)) ∧
  (v0 + Z.of_nat n ≤ MaxInt64 →
     Version (LastCommitID rs') = v0 + Z.of_nat n ∧
     ∀ i : nat, (1 ≤ i ≤ n)%nat →
       ∃ ci, getCommitInfo (db rs') (v0 + Z.of_nat i) = OK ci ∧
             CI_Version ci = v0 + Z.of_nat i).
Proof.
  intros Hrange Hrun v0.
  destruct (Commits_spec n rs rs' Hrange Hrun) as [Hfinal Hread].
  fold v0 in Hfinal, Hread.
  unfold LastCommitID, int64_add. split_and!; [done | exact Hread |].
  intros Hmax. split.
  - rewrite Hfinal. apply wrap64_id. lia.
  - intros i Hi. specialize (Hread i Hi).
    rewrite wrap64_id in Hread by lia. exact Hread.
Qed.

(** C3 (amended): after a [Commit()] that produced a version [v] other
    than 0, the latest-version pointer is [v] and [LoadVersion(v)] reads
    back the CommitInfo that the commit persisted and resolves all its
    names; from there on its outcome is that
    of instantiating the mounted stores: if all of them are instantiated the
    load succeeds and [LastCommitID()] is the CommitID that [Commit()]
    returned, and if one fails the load returns that error and leaves the
    multi-store as the commit left it. *)
Theorem Commit_then_LoadVersion rs rs1 (id : CommitID) :
  reachable rs →
  Commit rs = Ret (rs1, id) →
  Version id ≠ 0 →
  ∃ ci infos,
    getLatestVersion (db rs1) = Ret (Version id) ∧
    getCommitInfo (db rs1) (Version id) = OK ci ∧
    infos_range rs1 (StoreInfos ci) ∅ = Ret infos ∧
    (Forall (fun kp => ∃ s, loadCommitStoreFromParams rs1 kp.1
                              (resolvedCommitID infos kp.1) kp.2 = Ret (OK s))
            (storesParams rs1) →
       ∃ rs2, LoadVersion rs1 (Version id) = Ret (rs2, None) ∧
              LastCommitID rs2 = id) ∧
    (∀ e, newStores_range rs1 infos (storesParams rs1) [] = Ret (Error e) →
       LoadVersion rs1 (Version id) = Ret (rs1, Some e)) ∧
    (∀ rs2, LoadVersion rs1 (Version id) = Ret (rs2, None) → LastCommitID rs2 = id).
Proof.
  intros Hreach Hc Hv0.
  assert (wf rs1) as Hwf1 by (eapply wf_Commit; [by apply reachable_wf | done]).
  destruct (Commit_persists _ _ _ Hc) as (ci & Hget & Hv & Hid & Hcs).
  destruct (commitStores_spec _ _ _ _ Hcs) as (_ & Hkeys & Hnames & _).
  destruct (infos_range_known rs1 (StoreInfos ci) ∅) as [infos Hinfos].
  { intros si Hsi.
    assert (SI_Name si ∈ SI_Name <$> StoreInfos ci) as Hn
      by (apply list_elem_of_fmap; eauto).
    rewrite Hnames in Hn.
    apply list_elem_of_fmap in Hn as (key & -> & Hkey).
    apply list_elem_of_fmap. exists key. split; [done|].
    apply (wf_stores_mounted _ Hwf1).
    apply list_elem_of_fmap in Hkey as ([k s] & -> & [_ Hin]%list_elem_of_filter).
    apply list_elem_of_fmap. by exists (k, s). }
  exists ci, infos. unfold LoadVersion.
  rewrite decide_False by done. rewrite Hget, Hinfos. simpl.
  split_and!; [by apply (Commit_latest rs) | done | done | | |].
  - intros Hall.
    destruct (newStores_range_ok rs1 infos (storesParams rs1) [] Hall) as [ns ->].
    simpl. eexists. by split.
  - by intros e ->.
  - destruct (newStores_range rs1 infos (storesParams rs1) []) as [[ns|e]|];
      simpl; [|done..].
    by intros rs2 [= <-].
Qed.
End CommitProperties.

Lemma Demo_pos_of_bytes_of_pos (p : positive) :
  Demo.pos_of_bytes (Demo.bytes_of_pos p) = Some p.
Proof. induction p as [p IH|p IH|]; simpl; by rewrite ?IH. Qed.

Lemma Demo_unmarshal_marshal `{Countable A} (a : A) :
  Demo.unmarshal (Demo.marshal a) = OK a.
Proof.
  unfold Demo.unmarshal, Demo.marshal.
  rewrite Demo_pos_of_bytes_of_pos. simpl. by rewrite decode_encode.
Qed.

#[export] Instance Demo_codec_laws : CodecLaws (H:=Demo.codec).
Proof.
  split; simpl.
  - intros ci bz [= <-]. apply Demo_unmarshal_marshal.
  - intros v. apply Demo_unmarshal_marshal.
Qed.

Section CommitExamples.
Import Demo.

Lemma reachable_rsAT : reachable rsAT.
Proof.
  apply (reach_mount (mount keyA StoreTypeIAVL (NewCommitMultiStore ∅))
           (Some keyT) StoreTypeTransient None); [|reflexivity].
  apply (reach_mount (NewCommitMultiStore ∅) (Some keyA) StoreTypeIAVL None);
    [|reflexivity].
  apply reach_new.
Qed.

Lemma reachable_rsAT0 : reachable rsAT0.
Proof.
  apply (reach_load rsAT 0 rsAT0 None); [apply reachable_rsAT|].
  vm_compute. reflexivity.
Qed.

Lemma reachable_rsAB : reachable rsAB.
Proof.
  apply (reach_mount (mount keyA StoreTypeIAVL (NewCommitMultiStore ∅))
           (Some keyB) StoreTypeTransient None); [|reflexivity].
  apply (reach_mount (NewCommitMultiStore ∅) (Some keyA) StoreTypeIAVL None);
    [|reflexivity].
  apply reach_new.
Qed.

Lemma Commit_rsAT0 : Commit rsAT0 = Ret (rsAT1, idAT1).
Proof. vm_compute. reflexivity. Qed.

(** The first commit of [rsAT0]. *)
Lemma Commit_store_infos_witness :
  ∃ ci,
    getCommitInfo (db rsAT1) (Version idAT1) = OK ci ∧
    idAT1 = CommitInfo_CommitID ci ∧
    SI_Name <$> StoreInfos ci = Name <$> (filter participates (stores rsAT1)).*1 ∧
    NoDup (SI_Name <$> StoreInfos ci) ∧
    Forall (recordsCommitOf (Version idAT1) (stores rsAT0) (stores rsAT1)) (StoreInfos ci).
Proof.
  exact (Commit_store_infos rsAT0 rsAT1 idAT1 reachable_rsAT0 Commit_rsAT0).
Defined.

(** The transient store [t] is live in [rsAT0], yet the CommitInfo of the
    commit holds the entry of [a] alone. *)
Lemma Commit_leaves_out_transient :
  (stores rsAT0).*1 = [keyA; keyT] ∧
  getCommitInfo (db rsAT1) 1 =
    OK (mkCommitInfo 1 [mkStoreInfo "a" (mkStoreCore (mkCommitID 1 [x02]))]).
Proof. split; vm_compute; reflexivity. Qed.

(** Two commits from version 0. *)
Lemma Commits_monotone_witness :
  let v0 := Version (lastCommitID rsAT0) in
  Version (LastCommitID rsAT2) = int64_add v0 (Z.of_nat 2) ∧
  (∀ i : nat, (1 ≤ i ≤ 2)%nat →
     ∃ ci, getCommitInfo (db rsAT2) (int64_add v0 (Z.of_nat i)) = OK ci ∧
           CI_Version ci = int64_add v0 (Z.of_nat i)) ∧
  (v0 + Z.of_nat 2 ≤ MaxInt64 →
     Version (LastCommitID rsAT2) = v0 + Z.of_nat 2 ∧
     ∀ i : nat, (1 ≤ i ≤ 2)%nat →
       ∃ ci, getCommitInfo (db rsAT2) (v0 + Z.of_nat i) = OK ci ∧
             CI_Version ci = v0 + Z.of_nat i).
Proof.
  apply (Commits_monotone 2 rsAT0 rsAT2).
  - vm_compute. split; discriminate.
  - vm_compute. reflexivity.
Defined.

(** The first commit of [rsAT0], then the load of version 1. *)
Lemma Commit_then_LoadVersion_witness :
  ∃ ci infos,
    getLatestVersion (db rsAT1) = Ret (Version idAT1) ∧
    getCommitInfo (db rsAT1) (Version idAT1) = OK ci ∧
    infos_range rsAT1 (StoreInfos ci) ∅ = Ret infos ∧
    (Forall (fun kp => ∃ s, loadCommitStoreFromParams rsAT1 kp.1
                              (resolvedCommitID infos kp.1) kp.2 = Ret (OK s))
            (storesParams rsAT1) →
       ∃ rs2, LoadVersion rsAT1 (Version idAT1) = Ret (rs2, None) ∧
              LastCommitID rs2 = idAT1) ∧
    (∀ e, newStores_range rsAT1 infos (storesParams rsAT1) [] = Ret (Error e) →
       LoadVersion rsAT1 (Version idAT1) = Ret (rsAT1, Some e)) ∧
    (∀ rs2, LoadVersion rsAT1 (Version idAT1) = Ret (rs2, None) → LastCommitID rs2 = idAT1).
Proof.
  apply (Commit_then_LoadVersion rsAT0 rsAT1 idAT1).
  - apply reachable_rsAT0.
  - apply Commit_rsAT0.
  - vm_compute. discriminate.
Defined.

(** The sum is that of int64: from the largest int64 the next version is
    the smallest one. *)
Lemma Commit_wraps_at_MaxInt64 :
  ∃ rs' id,
    Commit (set_lastCommitID rsAT0 (mkCommitID MaxInt64 [])) = Ret (rs', id) ∧
    Version id = MinInt64.
Proof. do 2 eexists. split; vm_compute; reflexivity. Qed.

(** In [rsAT1] every store is instantiated, and the round trip closes. *)
Lemma Commit_then_LoadVersion_round_trip :
  ∃ rs2, LoadVersion rsAT1 (Version idAT1) = Ret (rs2, None) ∧ LastCommitID rs2 = idAT1.
Proof. eexists. split; vm_compute; reflexivity. Qed.

(** When an instantiation fails, [LoadVersion(0)] returns before it resets
    the last commit id: in [rsAB1] it stays at version 1. *)
Lemma LoadVersion_zero_failure_keeps_LastCommitID :
  ∃ rs' e, LoadVersion rsAB1 0 = Ret (rs', Some e) ∧
           LastCommitID rs' = mkCommitID 1 [].
Proof. do 2 eexists. split; vm_compute; reflexivity. Qed.

(** C3 as stated fails: [b] cannot be instantiated, so after a [Commit()]
    that produced version 1 the load of version 1 returns an error. *)
Lemma Commit_then_LoadVersion_can_fail :
  reachable rsAB ∧
  Commit rsAB = Ret (rsAB1, mkCommitID 1 []) ∧
  LoadVersion rsAB1 1 =
    Ret (rsAB1,
         Some "failed to load rootMultiStore: invalid StoreKey for StoreTypeTransient: KVStoreKey{b}") ∧
  ¬ ∃ rs2, LoadVersion rsAB1 1 = Ret (rs2, None).
Proof.
  assert (LoadVersion rsAB1 1 =
    Ret (rsAB1,
         Some "failed to load rootMultiStore: invalid StoreKey for StoreTypeTransient: KVStoreKey{b}"))
    as Hload by (vm_compute; reflexivity).
  split_and!.
  - apply reachable_rsAB.
  - vm_compute. reflexivity.
  - exact Hload.
  - intros [rs2 Hok]. rewrite Hload in Hok. discriminate Hok.
Qed.
End CommitExamples.

(** ** Queries *)

Section Queries.
Context `{Merkle} `{Codec} `{Protocol} {S : Type} `{!CommitStoreOps S}.
Implicit Types (rs : rootMultiStore S) (req : RequestQuery).

Lemma parsePath_no_slash (path : string) :
  ¬ hasSlashPrefix path →
  parsePath path = ("", "", Some (ErrUnknownRequest ("invalid path: " +:+ path))).
Proof.
  intros Hno. destruct path as [|c rest]; simpl; [done|].
  case_decide as Hc; [|done].
  exfalso. apply Hno. exists rest. by rewrite Hc.
Qed.

Lemma parsePath_slash (path : string) :
  hasSlashPrefix path → (parsePath path).2 = None.
Proof.
  intros [rest ->]. simpl.
  destruct (splitN2 rest) as [name [p|]]; done.
Qed.

Lemma parsePath_err_iff (path : string) :
  (parsePath path).2 = None ↔ hasSlashPrefix path.
Proof.
  split; [|apply parsePath_slash].
  intros Herr. destruct (decide (hasSlashPrefix path)) as [|Hno]; [done|].
  by rewrite (parsePath_no_slash path Hno) in Herr.
Qed.

Lemma getStoreByName_unmounted rs (name : string) :
  wf rs →
  (∀ key, key ∈ (storesParams rs).*1 → Name key ≠ name) →
  getStoreByName rs name = None.
Proof.
  intros Hwf Hnone. unfold getStoreByName.
  destruct (keysByName rs !! name) as [key|] eqn:Hkey; [|done].
  apply (wf_keysByName _ Hwf) in Hkey as [Hin Hname].
  by destruct (Hnone key Hin).
Qed.

(** C7 (amended): [Query] answers with an "unknown request" failure, and
    does not panic, whenever the path does not start with "/", or no live
    store is found under the first path segment (in particular when no
    mounted key carries that name), or the store found is not Queryable.
    Otherwise the request goes to the store with the subpath as its path:
    if no proof is required the store's answer is returned as it is, and if
    a proof is required and the CommitInfo of the answer's height is absent
    from the database, [Query] answers with an "internal error" failure.
    Conversely, when the two failure codes differ and the store's own answer
    is not an "unknown request" failure, [Query] answers with one only in
    the three cases above. *)
Theorem Query_failures rs req :
  let storeName := (parsePath (req_Path req)).1.1 in
  let subpath := (parsePath (req_Path req)).1.2 in
  (¬ hasSlashPrefix (req_Path req) → unknownRequest (Query rs req)) ∧
  (getStoreByName rs storeName = None → unknownRequest (Query rs req)) ∧
  (wf rs → (∀ key, key ∈ (storesParams rs).*1 → Name key ≠ storeName) →
     unknownRequest (Query rs req)) ∧
  (∀ store, getStoreByName rs storeName = Some store →
     store_Queryable store = None → unknownRequest (Query rs req)) ∧
  (∀ store queryable r,
     hasSlashPrefix (req_Path req) →
     getStoreByName rs storeName = Some store →
     store_Queryable store = Some queryable →
     queryable (set_Path req subpath) = Ret r →
     (req_Prove req = false ∨ RequireProof subpath = false → Query rs req = Ret r) ∧
     (req_Prove req = true → RequireProof subpath = true →
      db rs !! commitInfoKey (res_Height r) = None →
      internalError (Query rs req))) ∧
  ((∀ e msg, ABCICode (ErrInternal e) ≠ ABCICode (ErrUnknownRequest msg)) →
   (∀ store queryable,
      getStoreByName rs storeName = Some store →
      store_Queryable store = Some queryable →
      ¬ unknownRequest (queryable (set_Path req subpath))) →
   unknownRequest (Query rs req) →
   ¬ hasSlashPrefix (req_Path req) ∨
   getStoreByName rs storeName = None ∨
   ∃ store, getStoreByName rs storeName = Some store ∧
            store_Queryable store = None).
Proof.
  intros storeName subpath.
  assert (¬ hasSlashPrefix (req_Path req) → unknownRequest (Query rs req)) as Hbad.
  { intros Hno. unfold Query. rewrite (parsePath_no_slash _ Hno). by eexists. }
  assert (getStoreByName rs storeName = None → unknownRequest (Query rs req)) as Hnone.
  { intros Hget. destruct (decide (hasSlashPrefix (req_Path req))) as [Hs|]; [|auto].
    apply parsePath_slash in Hs. unfold Query. subst storeName.
    destruct (parsePath (req_Path req)) as [[name sub] err]. simpl in *. subst err.
    rewrite Hget. by eexists. }
  split_and!; [done | done | | | |].
  - intros Hwf Hnames. by apply Hnone, getStoreByName_unmounted.
  - intros store Hget Hq.
    destruct (decide (hasSlashPrefix (req_Path req))) as [Hs|]; [|auto].
    apply parsePath_slash in Hs. unfold Query. subst storeName.
    destruct (parsePath (req_Path req)) as [[name sub] err]. simpl in *. subst err.
    rewrite Hget, Hq. by eexists.
  - intros store queryable r Hs Hget Hq Hr.
    apply parsePath_slash in Hs. unfold Query. subst storeName subpath.
    destruct (parsePath (req_Path req)) as [[name sub] err]. simpl in *. subst err.
    rewrite Hget, Hq, Hr. simpl. split.
    + by intros [-> | ->]; rewrite ?orb_true_r.
    + intros -> -> Habsent. simpl. unfold getCommitInfo. rewrite Habsent.
      by eexists.
  - intros Hcodes Hstore [msg Hq].
    destruct (decide (hasSlashPrefix (req_Path req))) as [Hs|]; [right | by left].
    destruct (getStoreByName rs storeName) as [store|] eqn:Hget; [right | by left].
    destruct (store_Queryable store) as [queryable|] eqn:HQ; [exfalso | by exists store].
    specialize (Hstore store queryable eq_refl HQ).
    apply parsePath_slash in Hs. unfold Query in Hq. subst storeName subpath.
    destruct (parsePath (req_Path req)) as [[name sub] err]. simpl in *. subst err.
    rewrite Hget, HQ in Hq.
    destruct (queryable (set_Path req sub)) as [r|] eqn:Hr; simpl in Hq; [|done].
    destruct (negb (req_Prove req) || negb (RequireProof sub)).
    { apply Hstore. by exists msg. }
    destruct (getCommitInfo (db rs) (res_Height r)) as [ci|e].
    2: { injection Hq as Hcode _. by apply (Hcodes e msg). }
    unfold appendProofOp in Hq.
    case_decide.
    + destruct (CommitInfo_ProofOp ci name) as [op|]; simpl in Hq; [|done].
      destruct (res_Proof r); [|done]. by injection Hq.
    + destruct (res_Proof r); [|done]. by injection Hq.
Qed.
End Queries.

Section QueryExamples.
Import Demo.

(** C7 as stated fails in its "exactly when". First, [a] is mounted in
    [rsAB] but no load has instantiated it: the path starts with "/", a
    mounted store has the name of the first segment and no store was resolved
    that could fail to be Queryable, yet the answer is "unknown request".
    Second, in [rsAT0] the store [a] is mounted, live and Queryable, and the
    "unknown request" for an unexpected subpath is the store's own answer. *)
Lemma Query_unknown_request_otherwise :
  let req1 := mkRequestQuery [] "/a/key" 0 false in
  let req2 := mkRequestQuery [] "/a/bogus" 0 false in
  (unknownRequest (Query rsAB req1) ∧
   hasSlashPrefix (req_Path req1) ∧
   (parsePath (req_Path req1)).1.1 = "a" ∧
   keyA ∈ (storesParams rsAB).*1 ∧ Name keyA = "a" ∧
   getStoreByName rsAB "a" = None) ∧
  (unknownRequest (Query rsAT0 req2) ∧
   hasSlashPrefix (req_Path req2) ∧
   (parsePath (req_Path req2)).1.1 = "a" ∧
   keyA ∈ (storesParams rsAT0).*1 ∧ Name keyA = "a" ∧
   ∃ store, getStoreByName rsAT0 "a" = Some store ∧
            is_Some (store_Queryable store)).
Proof.
  intros req1 req2. split; split_and!.
  - eexists. vm_compute. reflexivity.
  - by eexists.
  - reflexivity.
  - left.
  - reflexivity.
  - reflexivity.
  - eexists. vm_compute. reflexivity.
  - by eexists.
  - reflexivity.
  - left.
  - reflexivity.
  - eexists. split; [reflexivity|]. by eexists.
Qed.

(** The two requests of the spec's own example. *)
Lemma Query_badpath_and_unknown_store :
  unknownRequest (Query rsAT0 (mkRequestQuery [] "badpath" 0 false)) ∧
  unknownRequest (Query rsAT0 (mkRequestQuery [] "/doesnotexist" 0 false)).
Proof. split; eexists; vm_compute; reflexivity. Qed.

(** A proof is required and no CommitInfo is stored for height 0. *)
Lemma Query_internal_error :
  internalError (Query rsAT0 (mkRequestQuery [] "/a/key" 0 true)).
Proof. eexists. vm_compute. reflexivity. Qed.
End QueryExamples.

(** * Further properties of the code *)

(** ** Paths *)

Section Paths.

Lemma append_empty_r (s : string) : s +:+ "" = s.
Proof.
  induction s as [|c s IH]; [done|].
  change (String c (s +:+ "") = String c s). by f_equal.
Qed.

Lemma hasSlash_cons (c : ascii) (s : string) :
  hasSlash (String c s) ↔ c = "/"%char ∨ hasSlash s.
Proof.
  split.
  - intros (pre & post & Heq). destruct pre as [|c' pre]; simpl in Heq.
    + injection Heq as -> _. by left.
    + injection Heq as -> ->. right. by exists pre, post.
  - intros [->|(pre & post & ->)].
    + by exists "", s.
    + by exists (String c pre), post.
Qed.

Lemma hasSlash_empty : ¬ hasSlash "".
Proof. intros (pre & post & Heq). by destruct pre. Qed.

Lemma splitN2_spec (s : string) :
  ¬ hasSlash (splitN2 s).1 ∧
  match (splitN2 s).2 with
  | Some rest => s = (splitN2 s).1 +:+ String "/" rest
  | None => s = (splitN2 s).1
  end.
Proof.
  induction s as [|c s [IH1 IH2]]; simpl.
  - split; [apply hasSlash_empty | done].
  - case_decide as Hc; simpl.
    + split; [apply hasSlash_empty | by rewrite Hc].
    + destruct (splitN2 s) as [a [rest|]]; simpl in *.
      * split; [|by rewrite IH2]. rewrite hasSlash_cons. tauto.
      * split; [|by rewrite IH2]. rewrite hasSlash_cons. tauto.
Qed.

Lemma splitN2_no_slash (n : string) : ¬ hasSlash n → splitN2 n = (n, None).
Proof.
  induction n as [|c n IH]; simpl; [done|].
  rewrite hasSlash_cons. intros Hn.
  case_decide; [destruct Hn; by left|].
  rewrite IH; [done|]. intros ?. apply Hn. by right.
Qed.

Lemma splitN2_at_slash (n rest : string) :
  ¬ hasSlash n → splitN2 (n +:+ String "/" rest) = (n, Some rest).
Proof.
  induction n as [|c n IH]; simpl.
  - done.
  - rewrite hasSlash_cons. intros Hn.
    case_decide; [destruct Hn; by left|].
    rewrite IH; [done|]. intros ?. apply Hn. by right.
Qed.

(** X1: a path that starts with "/" is parsed without error into a store
    name that holds no slash and a subpath that is empty or starts with
    "/", and the path is "/" followed by the two: nothing of it is lost. *)
Theorem parsePath_recompose (path storeName subpath : string) (err : option sdkError) :
  hasSlashPrefix path →
  parsePath path = (storeName, subpath, err) →
  err = None ∧
  path = "/" +:+ storeName +:+ subpath ∧
  ¬ hasSlash storeName ∧
  (subpath = "" ∨ hasSlashPrefix subpath).
Proof.
  intros [rest ->]. simpl.
  pose proof (splitN2_spec rest) as [Hno Hrest].
  destruct (splitN2 rest) as [a [tl|]]; simpl in *; intros [= <- <- <-].
  - split_and!; [done | by rewrite Hrest | done | right; by eexists].
  - split_and!; [done | | done | by left].
    rewrite append_empty_r. by rewrite Hrest.
Qed.

(** X2: conversely, "/" followed by a store name without a slash and by a
    subpath that is empty or starts with "/" is parsed into exactly that
    name and that subpath. *)
Theorem parsePath_of_composed (storeName subpath : string) :
  ¬ hasSlash storeName →
  subpath = "" ∨ hasSlashPrefix subpath →
  parsePath ("/" +:+ storeName +:+ subpath) = (storeName, subpath, None).
Proof.
  intros Hno Hsub.
  change ("/" +:+ storeName +:+ subpath)
    with (String "/"%char (storeName +:+ subpath)).
  destruct Hsub as [->|[rest ->]]; simpl.
  - rewrite append_empty_r. by rewrite splitN2_no_slash.
  - by rewrite splitN2_at_slash.
Qed.
End Paths.

Lemma parsePath_recompose_witness :
  hasSlashPrefix "/acc/key" ∧
  ((None : option sdkError) = None ∧
   "/acc/key" = "/" +:+ "acc" +:+ "/key" ∧
   ¬ hasSlash "acc" ∧
   ("/key" = "" ∨ hasSlashPrefix "/key")).
Proof.
  assert (hasSlashPrefix "/acc/key") as Hs by (by eexists).
  split; [exact Hs|].
  exact (parsePath_recompose "/acc/key" "acc" "/key" None Hs eq_refl).
Defined.

Lemma parsePath_of_composed_witness :
  parsePath ("/" +:+ "acc" +:+ "") = ("acc", "", None).
Proof.
  apply (parsePath_of_composed "acc" "").
  - intros Hs. repeat (apply hasSlash_cons in Hs as [Hs|Hs]; [discriminate Hs|]).
    by apply hasSlash_empty in Hs.
  - by left.
Defined.

(** ** Mounting *)

Section Mounting.
Context `{Merkle} `{Codec} `{Protocol} {S : Type} `{!CommitStoreOps S}.
Implicit Types (rs : rootMultiStore S) (ps : list (StoreKey * storeParams)).

Lemma wf_name_inj rs k k' :
  wf rs → k ∈ (storesParams rs).*1 → k' ∈ (storesParams rs).*1 →
  Name k = Name k' → k = k'.
Proof.
  intros Hwf. apply NoDup_fmap_inj_on, (wf_params_names _ Hwf).
Qed.

Lemma nameToKey_range_snoc ps key params name :
  nameToKey_range (ps ++ [(key, params)]) name =
    if decide (name ∈ Name <$> ps.*1) then nameToKey_range ps name
    else if decide (Name key = name) then Ret key
    else Panic ("Unknown name " +:+ name).
Proof.
  induction ps as [|[k p] ps IH]; csimpl.
  - destruct (decide (name ∈ [])) as [?%elem_of_nil|]; done.
  - destruct (decide (Name k = name)) as [Hk|Hk].
    + rewrite decide_True; [done|]. rewrite <-Hk. left.
    + rewrite IH.
      destruct (decide (name ∈ Name <$> ps.*1)) as [Hin|Hin];
        destruct (decide (name ∈ Name k :: (Name <$> ps.*1))) as [Hin'|Hin'];
        try done.
      * exfalso. apply Hin'. by right.
      * by apply elem_of_cons in Hin' as [->|?].
Qed.

(** X3: on a well-formed multi-store, mounting a key panics exactly when a
    mounted key already carries its name (the key itself included); a nil
    key always panics. *)
Theorem Mount_rejects_collisions rs (key : StoreKey) (typ : StoreType)
    (d : option DB) :
  wf rs →
  (panics (MountStoreWithDB rs (Some key) typ d) ↔
     ∃ k', k' ∈ (storesParams rs).*1 ∧ Name k' = Name key) ∧
  panics (MountStoreWithDB rs None typ d).
Proof.
  intros Hwf. split; [|apply panics_Panic]. unfold MountStoreWithDB. split.
  - intros [msg Hp].
    destruct (mapGet key (storesParams rs)) eqn:Hget.
    + exists key. split; [|done].
      destruct (decide (key ∈ (storesParams rs).*1)) as [|Hnot]; [done|].
      apply mapGet_None in Hnot. congruence.
    + destruct (keysByName rs !! Name key) as [k'|] eqn:Hname; [|done].
      exists k'. by apply (wf_keysByName _ Hwf).
  - intros (k' & Hin & Hname).
    assert (keysByName rs !! Name key = Some k') as ->
      by (by apply (wf_keysByName _ Hwf)).
    destruct (mapGet key (storesParams rs)); apply panics_Panic.
Qed.

(** X4: a successful mount is pure configuration. It leaves the database,
    the live stores and the last commit id alone, records the parameters
    under the key, and makes the key the answer of the name lookup for its
    name, while no store can yet be found under that name; every other key
    and name is served as before. *)
Theorem Mount_effect rs rs' (key : StoreKey) (typ : StoreType) (d : option DB) :
  wf rs →
  MountStoreWithDB rs (Some key) typ d = Ret rs' →
  db rs' = db rs ∧ stores rs' = stores rs ∧ lastCommitID rs' = lastCommitID rs ∧
  mapGet key (storesParams rs') = Some (mkStoreParams key d typ) ∧
  nameToKey rs' (Name key) = Ret key ∧
  getStoreByName rs' (Name key) = None ∧
  (∀ k, k ≠ key → mapGet k (storesParams rs') = mapGet k (storesParams rs)) ∧
  (∀ n, n ≠ Name key →
     nameToKey rs' n = nameToKey rs n ∧ getStoreByName rs' n = getStoreByName rs n).
Proof.
  intros Hwf. unfold MountStoreWithDB.
  destruct (mapGet key (storesParams rs)) eqn:Hget; [done|].
  destruct (keysByName rs !! Name key) eqn:Hname; [done|].
  intros [= <-]. apply mapGet_None in Hget.
  assert (Name key ∉ Name <$> (storesParams rs).*1) as Hfresh.
  { intros (k' & Hn & Hk')%list_elem_of_fmap.
    assert (keysByName rs !! Name key = Some k') as Hsome
      by (by apply (wf_keysByName _ Hwf)).
    congruence. }
  unfold nameToKey, getStoreByName. simpl.
  rewrite (mapSet_keys_fresh key _ _ Hget).
  split_and!; try done.
  - rewrite <-(mapSet_keys_fresh key _ _ Hget), mapGet_mapSet.
    by rewrite decide_True.
  - rewrite nameToKey_range_snoc, decide_False by done.
    by rewrite decide_True.
  - rewrite lookup_insert_eq. apply mapGet_None.
    intros Hin. by apply Hget, (wf_stores_mounted _ Hwf).
  - intros k Hk. rewrite <-(mapSet_keys_fresh key _ _ Hget), mapGet_mapSet.
    by rewrite decide_False.
  - intros n Hn. split.
    + rewrite nameToKey_range_snoc.
      destruct (decide (n ∈ Name <$> (storesParams rs).*1)) as [|Hnot]; [done|].
      rewrite decide_False by done.
      by rewrite nameToKey_range_unknown.
    + by rewrite lookup_insert_ne.
Qed.

(** X5: on a well-formed multi-store the linear scan [nameToKey] and the
    index [keysByName] give the same key, the scan panics exactly on the
    names the index lacks, and the scan's answer is the same for every order
    in which the range may visit the mounted keys. *)
Theorem nameToKey_agrees_with_index rs (name : string) :
  wf rs →
  (∀ key, nameToKey rs name = Ret key ↔ keysByName rs !! name = Some key) ∧
  (panics (nameToKey rs name) ↔ keysByName rs !! name = None) ∧
  (∀ ps, ps ≡ₚ storesParams rs → nameToKey_range ps name = nameToKey rs name).
Proof.
  intros Hwf. unfold nameToKey.
  assert (∀ key, nameToKey_range (storesParams rs) name = Ret key ↔
                 keysByName rs !! name = Some key) as Hiff.
  { intros key. rewrite (wf_keysByName _ Hwf). split.
    - apply nameToKey_range_Ret.
    - intros [Hin Hname].
      destruct (nameToKey_range_known (storesParams rs) name) as [k' Hk'].
      { apply list_elem_of_fmap. by exists key. }
      destruct (nameToKey_range_Ret _ _ _ Hk') as [Hin' Hname'].
      rewrite Hk'. f_equal. apply (wf_name_inj rs); congruence. }
  split_and!; [done | |].
  - split.
    + intros [msg Hp]. destruct (keysByName rs !! name) as [k|] eqn:Hk; [|done].
      assert (nameToKey_range (storesParams rs) name = Ret k) by (by apply Hiff).
      congruence.
    + intros Hnone.
      destruct (nameToKey_range (storesParams rs) name) as [k|msg] eqn:Hk.
      * assert (keysByName rs !! name = Some k) by (by apply Hiff). congruence.
      * apply panics_Panic.
  - intros ps Hperm.
    destruct (decide (name ∈ Name <$> (storesParams rs).*1)) as [Hin|Hnot].
    + destruct (nameToKey_range_known (storesParams rs) name Hin) as [k Hk].
      destruct (nameToKey_range_known ps name) as [k' Hk'];
        [by rewrite Hperm|].
      rewrite Hk, Hk'. f_equal.
      destruct (nameToKey_range_Ret _ _ _ Hk) as [? ?].
      destruct (nameToKey_range_Ret _ _ _ Hk') as [Hin' ?].
      rewrite Hperm in Hin'. apply (wf_name_inj rs); congruence.
    + rewrite (nameToKey_range_unknown _ _ Hnot).
      apply nameToKey_range_unknown. by rewrite Hperm.
Qed.

(** X6: every multi-store assembled by [NewCommitMultiStore],
    [MountStoreWithDB], [LoadVersion] and [Commit] keeps its keys mounted
    once and under pairwise distinct names, its name index exact, and its
    live stores under distinct mounted keys with pairwise distinct names. *)
Theorem reachable_invariant rs :
  reachable rs → wf rs ∧ NoDup (Name <$> (stores rs).*1).
Proof.
  intros Hwf%reachable_wf. split; [done | by apply wf_store_names].
Qed.
End Mounting.

Section MountingExamples.
Import Demo.

Lemma wf_rsAT : wf rsAT.
Proof. apply reachable_wf, reachable_rsAT. Qed.

Lemma wf_rsA : wf (mount keyA StoreTypeIAVL (NewCommitMultiStore ∅)).
Proof.
  apply reachable_wf.
  apply (reach_mount (NewCommitMultiStore ∅) (Some keyA) StoreTypeIAVL None);
    [apply reach_new | reflexivity].
Qed.

(** A second key named "a" on [rsAT]. *)
Lemma Mount_rejects_collisions_witness :
  (panics (MountStoreWithDB rsAT (Some (KVStoreKey 9 "a")) StoreTypeIAVL None) ↔
     ∃ k', k' ∈ (storesParams rsAT).*1 ∧ Name k' = Name (KVStoreKey 9 "a")) ∧
  panics (MountStoreWithDB rsAT None StoreTypeIAVL None).
Proof.
  exact (Mount_rejects_collisions rsAT (KVStoreKey 9 "a") StoreTypeIAVL None wf_rsAT).
Defined.

(** Mounting [t] beside [a]. *)
Lemma Mount_effect_witness :
  let rsA := mount keyA StoreTypeIAVL (NewCommitMultiStore ∅) in
  db rsAT = db rsA ∧ stores rsAT = stores rsA ∧ lastCommitID rsAT = lastCommitID rsA ∧
  mapGet keyT (storesParams rsAT) = Some (mkStoreParams keyT None StoreTypeTransient) ∧
  nameToKey rsAT (Name keyT) = Ret keyT ∧
  getStoreByName rsAT (Name keyT) = None ∧
  (∀ k, k ≠ keyT → mapGet k (storesParams rsAT) = mapGet k (storesParams rsA)) ∧
  (∀ n, n ≠ Name keyT →
     nameToKey rsAT n = nameToKey rsA n ∧ getStoreByName rsAT n = getStoreByName rsA n).
Proof.
  exact (Mount_effect (mount keyA StoreTypeIAVL (NewCommitMultiStore ∅)) rsAT
           keyT StoreTypeTransient None wf_rsA eq_refl).
Defined.

(** The name "a" on [rsAT]. *)
Lemma nameToKey_agrees_with_index_witness :
  (∀ key, nameToKey rsAT "a" = Ret key ↔ keysByName rsAT !! "a" = Some key) ∧
  (panics (nameToKey rsAT "a") ↔ keysByName rsAT !! "a" = None) ∧
  (∀ ps, ps ≡ₚ storesParams rsAT → nameToKey_range ps "a" = nameToKey rsAT "a").
Proof. exact (nameToKey_agrees_with_index rsAT "a" wf_rsAT). Defined.

(** [rsAT0]: two mounts and a load. *)
Lemma reachable_invariant_witness :
  wf rsAT0 ∧ NoDup (Name <$> (stores rsAT0).*1).
Proof. exact (reachable_invariant rsAT0 reachable_rsAT0). Defined.
End MountingExamples.

(** ** More on loading *)

Section LoadingMore.
Context `{Merkle} `{Codec} `{Protocol} {S : Type} `{!CommitStoreOps S}.
Implicit Types (rs : rootMultiStore S) (ps : list (StoreKey * storeParams)).

Lemma recorded_cons s si sis :
  recorded s (si :: sis) =
    match recorded s sis with
    | Some si' => Some si'
    | None => if decide (SI_Name si = s) then Some si else None
    end.
Proof.
  unfold recorded. rewrite filter_cons. case_decide; [|by destruct (last _)].
  by rewrite last_cons.
Qed.

Lemma loadCommitStoreFromParams_OK rs key id params (s : S) :
  loadCommitStoreFromParams rs key id params = Ret (OK s) →
  sp_typ params = StoreTypeIAVL ∨
  (sp_typ params = StoreTypeTransient ∧ isTransientStoreKey key = true).
Proof.
  unfold loadCommitStoreFromParams.
  destruct (sp_typ params); try done; [by left|].
  destruct (isTransientStoreKey key); [by right | done].
Qed.

Lemma loadVersion0_range_success rs ps (st st' : list (StoreKey * S)) :
  loadVersion0_range rs ps st = Ret (st', None) →
  Forall (fun kp => ∃ s, loadCommitStoreFromParams rs kp.1 zeroCommitID kp.2
                         = Ret (OK s)) ps ∧
  ∀ k, k ∈ ps.*1 ∨ k ∈ st.*1 → k ∈ st'.*1.
Proof.
  revert st. induction ps as [|[k0 p0] ps IH]; intros st; csimpl.
  - intros [= <-]. split; [done|]. by intros k [?%elem_of_nil|?].
  - destruct (loadCommitStoreFromParams rs k0 zeroCommitID p0) as [[s|e]|] eqn:Hl;
      simpl; [|done..].
    intros [Hall Hin]%IH. split.
    + apply Forall_cons. split; [by exists s | done].
    + intros k Hk. apply Hin. rewrite elem_of_mapSet_keys.
      rewrite elem_of_cons in Hk. tauto.
Qed.

Lemma newStores_range_post rs infos ps (st st' : list (StoreKey * S)) :
  newStores_range rs infos ps st = Ret (OK st') →
  NoDup (st.*1 ++ ps.*1) →
  st'.*1 = st.*1 ++ ps.*1 ∧
  (∀ k, k ∉ ps.*1 → mapGet k st' = mapGet k st) ∧
  ∀ k p, (k, p) ∈ ps →
    ∃ s, mapGet k st' = Some s ∧
         loadCommitStoreFromParams rs k (resolvedCommitID infos k) p = Ret (OK s).
Proof.
  revert st. induction ps as [|[k0 p0] ps IH]; intros st; csimpl.
  - intros [= <-] _. rewrite app_nil_r.
    split_and!; [done | done | by intros k p ?%elem_of_nil].
  - fold (resolvedCommitID infos k0).
    destruct (loadCommitStoreFromParams rs k0 _ p0) as [[s0|e]|] eqn:Hl;
      simpl; [|done..].
    intros Hrun Hnd.
    assert ((k0 ∉ st.*1) ∧ (k0 ∉ ps.*1)) as [Hst Hps].
    { apply NoDup_app in Hnd as (_ & Hdisj & [? ?]%NoDup_cons).
      split; [|done]. intros Hin. apply (Hdisj k0 Hin). left. }
    assert (NoDup ((mapSet k0 s0 st).*1 ++ ps.*1)) as Hnd1.
    { rewrite mapSet_keys, decide_False by done.
      by rewrite <-app_assoc. }
    destruct (IH _ Hrun Hnd1) as (Hkeys & Hout & Hin).
    rewrite mapSet_keys, decide_False in Hkeys by done.
    split_and!.
    + by rewrite Hkeys, <-app_assoc.
    + intros k [Hne Hk]%not_elem_of_cons.
      rewrite (Hout k Hk), mapGet_mapSet. by rewrite decide_False.
    + intros k p [[= -> ->]|Hkp]%elem_of_cons.
      * exists s0. split; [|done].
        rewrite (Hout k0 Hps), mapGet_mapSet. by rewrite decide_True.
      * by apply Hin.
Qed.

Lemma infos_range_lookup rs sis infos0 infos (k : StoreKey) :
  wf rs →
  infos_range rs sis infos0 = Ret infos →
  k ∈ (storesParams rs).*1 →
  infos !! k =
    match recorded (Name k) sis with
    | Some si => Some si
    | None => infos0 !! k
    end.
Proof.
  intros Hwf Hrun Hk. revert infos0 Hrun.
  induction sis as [|si sis IH]; intros infos0; simpl.
  - by intros [= <-].
  - destruct (nameToKey rs (SI_Name si)) as [key0|] eqn:Hkey0; simpl; [|done].
    intros Hrun. rewrite (IH _ Hrun), recorded_cons.
    destruct (recorded (Name k) sis); [done|].
    apply nameToKey_range_Ret in Hkey0 as [Hin0 Hname0].
    case_decide as Hn.
    + assert (key0 = k) as -> by (apply (wf_name_inj rs); congruence).
      by rewrite lookup_insert_eq.
    + rewrite lookup_insert_ne; [done|]. intros ->. done.
Qed.

(** X7: for a version other than 0, [LoadVersion] is all-or-nothing: when
    it returns an error, the multi-store is exactly as it was before the
    call. *)
Theorem LoadVersion_all_or_nothing rs rs' (ver : Z) (e : string) :
  ver ≠ 0 → LoadVersion rs ver = Ret (rs', Some e) → rs' = rs.
Proof. apply LoadVersion_error_keeps_state. Qed.

(** X8: for a version other than 0 whose CommitInfo record is absent or
    cannot be decoded, [LoadVersion] returns an error (it does not panic),
    names the cause, and leaves the multi-store as it was. *)
Theorem LoadVersion_missing_record rs (ver : Z) :
  ver ≠ 0 →
  (db rs !! commitInfoKey ver = None →
     LoadVersion rs ver = Ret (rs, Some "failed to get rootMultiStore: no data")) ∧
  (∀ bz e, db rs !! commitInfoKey ver = Some bz →
     UnmarshalCommitInfo bz = Error e →
     LoadVersion rs ver = Ret (rs, Some ("failed to get rootMultiStore: " +:+ e))).
Proof.
  intros Hver. unfold LoadVersion, getCommitInfo. rewrite decide_False by done.
  split.
  - by intros ->.
  - by intros bz e -> ->.
Qed.

(** X9: whatever the version, [LoadVersion] succeeds only if every mounted
    store is of type IAVL, or of type Transient under a transient key:
    mounting accepts any type, loading does not. *)
Theorem LoadVersion_success_types rs rs' (ver : Z) :
  LoadVersion rs ver = Ret (rs', None) →
  ∀ key params, (key, params) ∈ storesParams rs →
    sp_typ params = StoreTypeIAVL ∨
    (sp_typ params = StoreTypeTransient ∧ isTransientStoreKey key = true).
Proof.
  unfold LoadVersion. case_decide as Hver.
  - destruct (loadVersion0_range rs (storesParams rs) (stores rs))
      as [[st [e|]]|] eqn:Hrun; simpl; [done | | done].
    intros _ key params Hin.
    apply loadVersion0_range_success in Hrun as [Hall _].
    rewrite Forall_forall in Hall.
    destruct (Hall _ Hin) as [s Hs]. by eapply loadCommitStoreFromParams_OK.
  - destruct (getCommitInfo (db rs) ver) as [cInfo|]; [|done].
    destruct (infos_range rs (StoreInfos cInfo) ∅) as [infos|]; simpl; [|done].
    destruct (newStores_range rs infos (storesParams rs) []) as [[ns|]|] eqn:Hrun;
      simpl; [|done..].
    intros _ key params Hin.
    revert Hrun. generalize (@nil (StoreKey * S)).
    induction (storesParams rs) as [|[k0 p0] ps IH]; intros st; simpl.
    + by apply elem_of_nil in Hin.
    + destruct (loadCommitStoreFromParams rs k0 _ p0) as [[s|]|] eqn:Hl;
        simpl; [|done..].
      apply elem_of_cons in Hin as [[= -> ->]|Hin].
      * intros _. by eapply loadCommitStoreFromParams_OK.
      * by apply IH.
Qed.

(** X10: a successful [LoadVersion] of a version other than 0 on a
    well-formed multi-store leaves the database and the mount configuration
    alone, takes its last commit id from the persisted CommitInfo, and
    replaces the live stores by exactly one store per mounted key,
    instantiated at the CommitID that the CommitInfo records under the key's
    name, or at the zero CommitID when it records none (a store mounted
    after that version). *)
Theorem LoadVersion_instantiates rs rs' (ver : Z) :
  wf rs →
  ver ≠ 0 →
  LoadVersion rs ver = Ret (rs', None) →
  ∃ cInfo,
    getCommitInfo (db rs) ver = OK cInfo ∧
    LastCommitID rs' = CommitInfo_CommitID cInfo ∧
    db rs' = db rs ∧ storesParams rs' = storesParams rs ∧
    keysByName rs' = keysByName rs ∧ pruning rs' = pruning rs ∧
    (stores rs').*1 = (storesParams rs).*1 ∧
    ∀ key params, (key, params) ∈ storesParams rs →
      ∃ s, mapGet key (stores rs') = Some s ∧
           loadCommitStoreFromParams rs key
             (match recorded (Name key) (StoreInfos cInfo) with
              | Some si => Core_CommitID (Core si)
              | None => zeroCommitID
              end) params = Ret (OK s).
Proof.
  intros Hwf Hver. unfold LoadVersion. rewrite decide_False by done.
  destruct (getCommitInfo (db rs) ver) as [cInfo|]; [|done].
  destruct (infos_range rs (StoreInfos cInfo) ∅) as [infos|] eqn:Hinfos;
    simpl; [|done].
  destruct (newStores_range rs infos (storesParams rs) []) as [[ns|]|] eqn:Hrun;
    simpl; [|done..].
  intros [= <-]. exists cInfo. simpl.
  destruct (newStores_range_post _ _ _ _ _ Hrun) as (Hkeys & _ & Hin).
  { simpl. apply (wf_params_keys _ Hwf). }
  split_and!; try done.
  intros key params Hkp. destruct (Hin key params Hkp) as (s & Hget & Hload).
  exists s. split; [done|].
  assert (key ∈ (storesParams rs).*1) as Hk
    by (apply list_elem_of_fmap; by exists (key, params)).
  unfold resolvedCommitID in Hload.
  rewrite (infos_range_lookup rs _ _ _ key Hwf Hinfos Hk) in Hload.
  rewrite lookup_empty in Hload.
  by destruct (recorded (Name key) (StoreInfos cInfo)).
Qed.

(** X11: after a successful [LoadVersion], of version 0 or not, on a
    well-formed multi-store, every mounted store is found by its name: the
    name lookup that [Query] uses returns the live store of the key. *)
Theorem LoadVersion_names_resolve rs rs' (ver : Z) :
  wf rs →
  LoadVersion rs ver = Ret (rs', None) →
  ∀ key, key ∈ (storesParams rs).*1 →
    ∃ s, getStoreByName rs' (Name key) = Some s ∧ GetCommitStore rs' key = Some s.
Proof.
  intros Hwf Hrun key Hkey.
  assert (keysByName rs' = keysByName rs ∧ key ∈ (stores rs').*1) as [Hidx Hlive].
  { revert Hrun. unfold LoadVersion. case_decide as Hver.
    - destruct (loadVersion0_range rs (storesParams rs) (stores rs))
        as [[st [e|]]|] eqn:Hrun; simpl; [done | | done].
      intros [= <-]. split; [done|]. simpl.
      apply loadVersion0_range_success in Hrun as [_ Hin]. apply Hin. by left.
    - destruct (getCommitInfo (db rs) ver) as [cInfo|]; [|done].
      destruct (infos_range rs (StoreInfos cInfo) ∅) as [infos|]; simpl; [|done].
      destruct (newStores_range rs infos (storesParams rs) []) as [[ns|]|] eqn:Hrun;
        simpl; [|done..].
      intros [= <-]. split; [done|]. simpl.
      destruct (newStores_range_post _ _ _ _ _ Hrun) as (Hkeys & _).
      { simpl. apply (wf_params_keys _ Hwf). }
      by rewrite Hkeys. }
  unfold getStoreByName, GetCommitStore. rewrite Hidx.
  assert (keysByName rs !! Name key = Some key) as ->
    by (by apply (wf_keysByName _ Hwf)).
  destruct (mapGet key (stores rs')) as [s|] eqn:Hget; [by exists s|].
  by apply mapGet_None in Hget.
Qed.
End LoadingMore.

Section LoadingMoreExamples.
Import Demo.

Lemma wf_rsAT1 : wf rsAT1.
Proof.
  apply reachable_wf.
  apply (reach_commit rsAT0 rsAT1 idAT1); [apply reachable_rsAT0 | apply Commit_rsAT0].
Qed.

(** [b] cannot be instantiated when version 1 is loaded. *)
Lemma LoadVersion_all_or_nothing_witness :
  LoadVersion rsABd 1 =
    Ret (rsABd, Some "failed to load rootMultiStore: invalid StoreKey for StoreTypeTransient: KVStoreKey{b}")
  ∧ rsABd = rsABd.
Proof.
  assert (LoadVersion rsABd 1 =
    Ret (rsABd, Some "failed to load rootMultiStore: invalid StoreKey for StoreTypeTransient: KVStoreKey{b}"))
    as Hrun by (vm_compute; reflexivity).
  split; [exact Hrun|].
  apply (LoadVersion_all_or_nothing rsABd rsABd 1 _ ltac:(discriminate) Hrun).
Defined.

(** No version 7 in the database of [rsAT1]. *)
Lemma LoadVersion_missing_record_witness :
  (db rsAT1 !! commitInfoKey 7 = None →
     LoadVersion rsAT1 7 = Ret (rsAT1, Some "failed to get rootMultiStore: no data")) ∧
  (∀ bz e, db rsAT1 !! commitInfoKey 7 = Some bz →
     UnmarshalCommitInfo bz = Error e →
     LoadVersion rsAT1 7 = Ret (rsAT1, Some ("failed to get rootMultiStore: " +:+ e))).
Proof. apply (LoadVersion_missing_record rsAT1 7). discriminate. Defined.

Lemma LoadVersion_rsAT : LoadVersion rsAT 0 = Ret (rsAT0, None).
Proof. vm_compute. reflexivity. Qed.

Lemma LoadVersion_rsAT1 : LoadVersion rsAT1 1 = Ret (rsAT1L, None).
Proof. vm_compute. reflexivity. Qed.

(** The two stores of [rsAT]. *)
Lemma LoadVersion_success_types_witness :
  sp_typ (mkStoreParams keyT None StoreTypeTransient) = StoreTypeIAVL ∨
  (sp_typ (mkStoreParams keyT None StoreTypeTransient) = StoreTypeTransient ∧
   isTransientStoreKey keyT = true).
Proof.
  apply (LoadVersion_success_types rsAT rsAT0 0 LoadVersion_rsAT keyT).
  vm_compute. repeat constructor.
Defined.

(** Version 1 loaded into [rsAT1]. *)
Lemma LoadVersion_instantiates_witness :
  ∃ cInfo,
    getCommitInfo (db rsAT1) 1 = OK cInfo ∧
    LastCommitID rsAT1L = CommitInfo_CommitID cInfo ∧
    db rsAT1L = db rsAT1 ∧ storesParams rsAT1L = storesParams rsAT1 ∧
    keysByName rsAT1L = keysByName rsAT1 ∧ pruning rsAT1L = pruning rsAT1 ∧
    (stores rsAT1L).*1 = (storesParams rsAT1).*1 ∧
    ∀ key params, (key, params) ∈ storesParams rsAT1 →
      ∃ s, mapGet key (stores rsAT1L) = Some s ∧
           loadCommitStoreFromParams rsAT1 key
             (match recorded (Name key) (StoreInfos cInfo) with
              | Some si => Core_CommitID (Core si)
              | None => zeroCommitID
              end) params = Ret (OK s).
Proof.
  apply (LoadVersion_instantiates rsAT1 rsAT1L 1 wf_rsAT1).
  - discriminate.
  - apply LoadVersion_rsAT1.
Defined.

(** The stores of [rsAT] after the load of version 0. *)
Lemma LoadVersion_names_resolve_witness :
  ∃ s, getStoreByName rsAT0 (Name keyT) = Some s ∧ GetCommitStore rsAT0 keyT = Some s.
Proof.
  apply (LoadVersion_names_resolve rsAT rsAT0 0 wf_rsAT LoadVersion_rsAT keyT).
  by_compute.
Defined.
End LoadingMoreExamples.

(** ** More on committing and on the persisted metadata *)

Section CommittingMore.
Context `{Merkle} `{Codec} `{Protocol} {S : Type} `{!CommitStoreOps S}.
Implicit Types (rs : rootMultiStore S) (sm : list (StoreKey * S)).

Lemma commitStores_range_visits version sm acc sis sm' :
  commitStores_range version sm acc = Ret (sis, sm') →
  Forall2 (visited version) sm sm'.
Proof.
  revert acc sis sm'.
  induction sm as [|[key store] sm IH]; intros acc sis sm'; simpl.
  - intros [= <- <-]. constructor.
  - destruct (ShouldCommitStore (Name key)) eqn:Hpol; simpl.
    + destruct (store_Commit _) as [[commitID store2]|] eqn:Hcommit; simpl; [|done].
      assert (visited version (key, store) (key, store2)) as Hv.
      { split; [done|]. simpl. rewrite Hpol. by exists commitID. }
      case_decide.
      * destruct (commitStores_range version sm acc) as [[sis0 rest']|] eqn:Hrest;
          simpl; [|done].
        intros [= <- <-]. constructor; [done | by eapply IH].
      * destruct (commitStores_range version sm _) as [[sis0 rest']|] eqn:Hrest;
          simpl; [|done].
        intros [= <- <-]. constructor; [done | by eapply IH].
    + destruct (commitStores_range version sm acc) as [[sis0 rest']|] eqn:Hrest;
        simpl; [|done].
      intros [= <- <-]. constructor; [|by eapply IH].
      split; [done|]. simpl. by rewrite Hpol.
Qed.


(** X13: a [Commit()] keeps every live store under its key and in its
    place. A store whose name the commit policy rejects is left as it was;
    every other store, a transient one included, is replaced by the state
    its own [Commit()] leaves, after [SetVersion(version - 1)] when the
    version policy asks for it. *)
Theorem Commit_visits_stores rs rs' (id : CommitID) :
  Commit rs = Ret (rs', id) →
  Forall2 (visited (Version id)) (stores rs) (stores rs').
Proof.
  intros (ci & bz & Hcs & _ & _ & -> & _)%Commit_inv. simpl.
  unfold commitStores in Hcs.
  destruct (commitStores_range _ (stores rs) []) as [[sis sm']|] eqn:Hrun;
    simpl in Hcs; [|done].
  injection Hcs as _ <-. by eapply commitStores_range_visits.
Qed.

(** X14: the two records written through a batch are read back: after
    [setCommitInfo] and [setLatestVersion] on one batch and its [Write()],
    [getCommitInfo] returns the CommitInfo under its version,
    [getLatestVersion] returns the version set, and every other version
    and every other key reads as before. *)
Theorem metadata_round_trip `{!CodecLaws} (d : DB) (ver v : Z) (ci : CommitInfo)
    (batch : Batch) :
  setCommitInfo [] ver ci = Ret batch →
  let d' := Batch_Write (setLatestVersion batch v) d in
  getCommitInfo d' ver = OK ci ∧
  getLatestVersion d' = Ret v ∧
  (∀ w, w ≠ ver → getCommitInfo d' w = getCommitInfo d w) ∧
  (∀ k, k ≠ latestVersionKey → k ≠ commitInfoKey ver → d' !! k = d !! k).
Proof.
  unfold setCommitInfo.
  destruct (MarshalCommitInfo ci) as [bz|] eqn:Hbz; [|done].
  intros [= <-]. simpl. split_and!.
  - rewrite getCommitInfo_insert_latest. by apply getCommitInfo_insert_same.
  - unfold getLatestVersion. by rewrite lookup_insert_eq, Int64_round_trip.
  - intros w Hw. rewrite getCommitInfo_insert_latest.
    by apply getCommitInfo_insert_other.
  - intros k Hk1 Hk2. by rewrite !lookup_insert_ne.
Qed.

(** X15: the metadata keys are kept apart: the keys of two different
    versions differ, no version key is the key of the latest-version
    pointer, and neither lies in the partition of a substore, whether under
    "s/k:<name>/" in the shared database or under "s/_/". *)
Theorem metadata_keys_separate :
  (∀ v w, commitInfoKey v = commitInfoKey w → v = w) ∧
  (∀ v, commitInfoKey v ≠ latestVersionKey) ∧
  (∀ (name suffix : string) v,
     "s/k:" +:+ name +:+ "/" +:+ suffix ≠ commitInfoKey v ∧
     "s/k:" +:+ name +:+ "/" +:+ suffix ≠ latestVersionKey ∧
     "s/_/" +:+ suffix ≠ commitInfoKey v ∧
     "s/_/" +:+ suffix ≠ latestVersionKey).
Proof.
  split_and!; [apply commitInfoKey_inj | apply commitInfoKey_not_latest |].
  intros name suffix v. unfold commitInfoKey, latestVersionKey.
  split_and!; intros Heq; try discriminate Heq.
  - apply (inj (String.append "s/") ("k:" +:+ name +:+ "/" +:+ suffix)) in Heq.
    destruct (Z.to_int v) as [u|u]; destruct u; discriminate.
  - apply (inj (String.append "s/") ("_/" +:+ suffix)) in Heq.
    destruct (Z.to_int v) as [u|u]; destruct u; discriminate.
Qed.

(** X16: [LoadLatestVersion] loads the version that the pointer decodes
    to, and panics when the pointer is present but cannot be decoded: it
    does not return that as an error. *)
Theorem LoadLatestVersion_pointer rs (bz : bytes) :
  db rs !! latestVersionKey = Some bz →
  (∀ v, UnmarshalInt64 bz = OK v → LoadLatestVersion rs = LoadVersion rs v) ∧
  (∀ e, UnmarshalInt64 bz = Error e → LoadLatestVersion rs = Panic e).
Proof.
  intros Hptr. unfold LoadLatestVersion, getLatestVersion. rewrite Hptr.
  split; by intros ? ->.
Qed.

Lemma Commits_latest `{!CodecLaws} (n : nat) rs rs' :
  Commits n rs = Ret rs' →
  n = O ∨ getLatestVersion (db rs') = Ret (Version (lastCommitID rs')).
Proof.
  revert rs. induction n as [|n IH]; intros rs; simpl; [by left|].
  destruct (Commit rs) as [[rs1 id]|] eqn:Hc; simpl; [|done].
  intros Hrun. right. destruct (IH _ Hrun) as [->|Hlatest]; [|done].
  simpl in Hrun. injection Hrun as <-.
  destruct (Commit_version _ _ _ Hc) as [_ ->]. by eapply Commit_latest.
Qed.

(** X17: after one or more successful [Commit()] calls,
    [LoadLatestVersion()] is [LoadVersion] of the version that
    [LastCommitID()] reports. *)
Theorem LoadLatestVersion_after_Commits `{!CodecLaws} (n : nat) rs rs' :
  (0 < n)%nat →
  Commits n rs = Ret rs' →
  LoadLatestVersion rs' = LoadVersion rs' (Version (LastCommitID rs')).
Proof.
  intros Hn Hrun. unfold LoadLatestVersion, LastCommitID.
  destruct (Commits_latest n rs rs' Hrun) as [-> | ->]; [lia | done].
Qed.
End CommittingMore.

Section CommittingMoreExamples.
Import Demo.


Lemma Commit_visits_stores_witness :
  Forall2 (visited (Version idAT1)) (stores rsAT0) (stores rsAT1).
Proof. exact (Commit_visits_stores rsAT0 rsAT1 idAT1 Commit_rsAT0). Defined.

Lemma setCommitInfo_demo :
  setCommitInfo [] 7 (mkCommitInfo 7 []) =
  Ret [(commitInfoKey 7, marshal (mkCommitInfo 7 []))].
Proof. vm_compute. reflexivity. Qed.

Lemma metadata_round_trip_witness :
  let d' := Batch_Write
              (setLatestVersion [(commitInfoKey 7, marshal (mkCommitInfo 7 []))] 7)
              (db rsAT1) in
  getCommitInfo d' 7 = OK (mkCommitInfo 7 []) ∧
  getLatestVersion d' = Ret 7 ∧
  (∀ w, w ≠ 7 → getCommitInfo d' w = getCommitInfo (db rsAT1) w) ∧
  (∀ k, k ≠ latestVersionKey → k ≠ commitInfoKey 7 → d' !! k = db rsAT1 !! k).
Proof.
  exact (metadata_round_trip (db rsAT1) 7 7
           (mkCommitInfo 7 []) _ setCommitInfo_demo).
Defined.

Lemma latest_pointer_rsAT1 :
  db rsAT1 !! latestVersionKey = Some (MarshalInt64 1).
Proof. vm_compute. reflexivity. Qed.

Lemma LoadLatestVersion_pointer_witness :
  (∀ v, UnmarshalInt64 (MarshalInt64 1) = OK v →
        LoadLatestVersion rsAT1 = LoadVersion rsAT1 v) ∧
  (∀ e, UnmarshalInt64 (MarshalInt64 1) = Error e →
        LoadLatestVersion rsAT1 = Panic e).
Proof. exact (LoadLatestVersion_pointer rsAT1 _ latest_pointer_rsAT1). Defined.

Lemma Commits_rsAT0 : Commits 2 rsAT0 = Ret rsAT2.
Proof. vm_compute. reflexivity. Qed.

Lemma LoadLatestVersion_after_Commits_witness :
  LoadLatestVersion rsAT2 = LoadVersion rsAT2 (Version (LastCommitID rsAT2)).
Proof.
  apply (LoadLatestVersion_after_Commits 2 rsAT0 rsAT2);
    [lia | exact Commits_rsAT0].
Defined.
End CommittingMoreExamples.

(** ** Queries with proofs *)

Section QueryProofs.
Context `{Merkle} `{Codec} `{Protocol} {S : Type} `{!CommitStoreOps S}.
Implicit Types (rs : rootMultiStore S) (req : RequestQuery).

Lemma CommitInfo_ProofOp_unrecorded `{!MerkleLaws} (ci : CommitInfo) (s : string) :
  s ∉ SI_Name <$> StoreInfos ci → panics (CommitInfo_ProofOp ci s).
Proof.
  intros Hnot%recorded_None. unfold CommitInfo_ProofOp.
  pose proof (proofs_keys (toMap ci) s) as Hkeys.
  destruct (SimpleProofsFromMap (toMap ci)) as [[r proofs] keys].
  simpl in Hkeys.
  destruct (proofs !! s) as [p|] eqn:Hp; [|apply panics_Panic].
  destruct Hkeys as [Hk _]. destruct Hk as [h Hh]; [by exists p|].
  rewrite toMap_lookup, Hnot in Hh. done.
Qed.

(** X18: when a proof is asked for and the rules require one for the
    subpath, and the subpath is not "/ics23-key", [Query] reads the
    CommitInfo of the height the store answered at, not of the height
    asked for, and returns the store's answer with one operation
    appended after the store's own: the multistore proof built from the
    store infos of that CommitInfo, under the store's name. An answer whose
    proof is nil makes [Query] panic. *)
Theorem Query_appends_multistore_proof rs req (storeName subpath : string)
    (store : S) queryable (r : ResponseQuery) (ci : CommitInfo) :
  parsePath (req_Path req) = (storeName, subpath, None) →
  getStoreByName rs storeName = Some store →
  store_Queryable store = Some queryable →
  queryable (set_Path req subpath) = Ret r →
  req_Prove req = true →
  RequireProof subpath = true →
  subpath ≠ "/ics23-key" →
  getCommitInfo (db rs) (res_Height r) = OK ci →
  match res_Proof r with
  | Some ops =>
      Query rs req =
      Ret (set_Proof r
             (Some (ops ++ [MultiStoreProofOp (bytes_of_string storeName)
                              (NewMultiStoreProof (StoreInfos ci))])))
  | None => panics (Query rs req)
  end.
Proof.
  intros Hpath Hstore Hq Hr Hprove Hreq Hsub Hci. unfold Query.
  rewrite Hpath, Hstore, Hq, Hr. simpl. rewrite Hprove, Hreq. simpl.
  rewrite Hci. rewrite decide_False by done. unfold appendProofOp.
  destruct (res_Proof r); [done | apply panics_Panic].
Qed.

(** X19: on the subpath "/ics23-key", with a proof asked for and
    required, [Query] panics when the CommitInfo of the answered height
    does not list the store's name; when [ProofOp] returns for that name,
    its operation is appended after the store's own. *)
Theorem Query_ics23_proof `{!MerkleLaws} rs req (storeName : string)
    (store : S) queryable (r : ResponseQuery) (ci : CommitInfo) :
  parsePath (req_Path req) = (storeName, "/ics23-key", None) →
  getStoreByName rs storeName = Some store →
  store_Queryable store = Some queryable →
  queryable (set_Path req "/ics23-key") = Ret r →
  req_Prove req = true →
  RequireProof "/ics23-key" = true →
  getCommitInfo (db rs) (res_Height r) = OK ci →
  (storeName ∉ SI_Name <$> StoreInfos ci → panics (Query rs req)) ∧
  (∀ op ops, CommitInfo_ProofOp ci storeName = Ret op →
             res_Proof r = Some ops →
             Query rs req = Ret (set_Proof r (Some (ops ++ [op])))).
Proof.
  intros Hpath Hstore Hq Hr Hprove Hreq Hci. unfold Query.
  rewrite Hpath, Hstore, Hq, Hr. simpl. rewrite Hprove, Hreq. simpl.
  rewrite Hci. split.
  - intros Hnot. destruct (CommitInfo_ProofOp_unrecorded ci storeName Hnot) as [e ->].
    apply panics_Panic.
  - intros op ops -> Hops. simpl. unfold appendProofOp. by rewrite Hops.
Qed.
End QueryProofs.

Section QueryProofsExamples.
Import Demo.

Lemma Query_appends_multistore_proof_witness :
  match res_Proof (mkResponseQuery 0 "" "" 0 [] [] (Some []) 1) with
  | Some ops =>
      Query rsAT1 (reqProve "/a/key") =
      Ret (set_Proof (mkResponseQuery 0 "" "" 0 [] [] (Some []) 1)
             (Some (ops ++ [MultiStoreProofOp (bytes_of_string "a")
                              (NewMultiStoreProof
                                 [mkStoreInfo "a" (mkStoreCore (mkCommitID 1 [x02]))])])))
  | None => panics (Query rsAT1 (reqProve "/a/key"))
  end.
Proof.
  apply (Query_appends_multistore_proof rsAT1 (reqProve "/a/key") "a" "/key"
           (mkStore StoreTypeIAVL (mkCommitID 1 [x02]) [])
           (query (mkStore StoreTypeIAVL (mkCommitID 1 [x02]) []))
           (mkResponseQuery 0 "" "" 0 [] [] (Some []) 1)
           (mkCommitInfo 1 [mkStoreInfo "a" (mkStoreCore (mkCommitID 1 [x02]))]));
    try (vm_compute; reflexivity).
  discriminate.
Defined.

Lemma Query_ics23_proof_witness :
  ("a" ∉ SI_Name <$> StoreInfos (mkCommitInfo 1 []) →
   panics (Query rsAT1e (reqProve "/a/ics23-key"))) ∧
  (∀ op ops, CommitInfo_ProofOp (mkCommitInfo 1 []) "a" = Ret op →
             res_Proof (mkResponseQuery 0 "" "" 0 [] [] (Some []) 1) = Some ops →
             Query rsAT1e (reqProve "/a/ics23-key") =
             Ret (set_Proof (mkResponseQuery 0 "" "" 0 [] [] (Some []) 1)
                    (Some (ops ++ [op])))).
Proof.
  apply (Query_ics23_proof rsAT1e (reqProve "/a/ics23-key") "a"
           (mkStore StoreTypeIAVL (mkCommitID 1 [x02]) [])
           (query (mkStore StoreTypeIAVL (mkCommitID 1 [x02]) []))
           (mkResponseQuery 0 "" "" 0 [] [] (Some []) 1)
           (mkCommitInfo 1 []));
    vm_compute; reflexivity.
Defined.
End QueryProofsExamples.

(** ** The order in which [commitStores] ranges over the stores *)

Section RangeOrder.
Context `{Merkle} `{Codec} `{Protocol} {S : Type} `{!CommitStoreOps S}.
Implicit Types (rs : rootMultiStore S) (sm : list (StoreKey * S)).

Lemma Forall2_Permutation_l {A B} (R : A → B → Prop) (l1 l2 : list A) (k1 : list B) :
  l1 ≡ₚ l2 → Forall2 R l1 k1 → ∃ k2, k1 ≡ₚ k2 ∧ Forall2 R l2 k2.
Proof.
  intros Hperm. revert k1.
  induction Hperm as [|x l1 l2 _ IH|x y l|l1 l2 l3 _ IH1 _ IH2]; intros k1 Hall.
  - apply Forall2_nil_inv_l in Hall as ->. by exists [].
  - apply Forall2_cons_inv_l in Hall as (b & k & Hb & Hk & ->).
    destruct (IH k Hk) as (k2 & ? & ?).
    exists (b :: k2). split; [by constructor | by constructor].
  - apply Forall2_cons_inv_l in Hall as (b1 & k & Hb1 & Hk & ->).
    apply Forall2_cons_inv_l in Hk as (b2 & k' & Hb2 & Hk' & ->).
    exists (b2 :: b1 :: k'). split; [apply perm_swap | by repeat constructor].
  - destruct (IH1 k1 Hall) as (k2 & ? & Hall2).
    destruct (IH2 k2 Hall2) as (k3 & ? & ?).
    exists k3. split; [by etrans | done].
Qed.

Lemma concat_Permutation {A} (l1 l2 : list (list A)) :
  l1 ≡ₚ l2 → concat l1 ≡ₚ concat l2.
Proof.
  induction 1 as [|x l1 l2 _ IH|x y l|l1 l2 l3 _ IH1 _ IH2]; simpl.
  - done.
  - by rewrite IH.
  - rewrite !(assoc_L (++)). by rewrite (comm (++) y x).
  - by etrans.
Qed.

(** The loop of [commitStores] is its iterations one after the other. *)
Lemma commitStores_range_cons version (ks : StoreKey * S) sm acc :
  commitStores_range version (ks :: sm) acc =
  '(new, ks') ← visit version ks;
  '(sis, rest') ← commitStores_range version sm (acc ++ new);
  Ret (sis, ks' :: rest').
Proof.
  destruct ks as [key store]. unfold visit, prepared. simpl.
  destruct (ShouldCommitStore (Name key)); simpl.
  - destruct (store_Commit _) as [[commitID store2]|]; simpl; [|done].
    case_decide; simpl; by rewrite ?app_nil_r.
  - by rewrite app_nil_r.
Qed.

Lemma commitStores_range_visit version sm acc sis sm' :
  commitStores_range version sm acc = Ret (sis, sm') ↔
  ∃ outs, Forall2 (fun ks out => visit version ks = Ret out) sm outs ∧
          sis = acc ++ concat outs.*1 ∧ sm' = outs.*2.
Proof.
  revert acc sis sm'.
  induction sm as [|ks sm IH]; intros acc sis sm'.
  - simpl. split.
    + intros [= <- <-]. exists []. by rewrite app_nil_r.
    + intros (outs & ->%Forall2_nil_inv_l & -> & ->). simpl. by rewrite app_nil_r.
  - rewrite commitStores_range_cons.
    destruct (visit version ks) as [[new ks']|] eqn:Hv; simpl.
    2: { split; [done|].
         intros (outs & (out & ? & Hout & _)%Forall2_cons_inv_l & _).
         cbv beta in Hout. by rewrite Hv in Hout. }
    split.
    + destruct (commitStores_range version sm (acc ++ new)) as [[sis0 rest']|] eqn:Hrest;
        simpl; [|done].
      intros [= <- <-]. apply IH in Hrest as (outs & ? & -> & ->).
      exists ((new, ks') :: outs). split_and!; [by constructor | | done].
      simpl. by rewrite (assoc_L (++)).
    + intros (outs & (out & outs' & Hout & Hall & ->)%Forall2_cons_inv_l & -> & ->).
      cbv beta in Hout. rewrite Hv in Hout. injection Hout as <-. simpl.
      erewrite (proj2 (IH _ _ _)); [done|].
      exists outs'. split_and!; [done | | done].
      by rewrite (assoc_L (++)).
Qed.

Lemma commitStores_Permutation version sm1 sm2 ci1 sm1' :
  sm1 ≡ₚ sm2 →
  commitStores version sm1 = Ret (ci1, sm1') →
  ∃ ci2 sm2', commitStores version sm2 = Ret (ci2, sm2') ∧
              CI_Version ci2 = CI_Version ci1 ∧
              StoreInfos ci1 ≡ₚ StoreInfos ci2 ∧ sm1' ≡ₚ sm2'.
Proof.
  intros Hperm. unfold commitStores.
  destruct (commitStores_range version sm1 []) as [[sis1 rest1]|] eqn:Hrun;
    simpl; [|done].
  intros [= <- <-].
  apply commitStores_range_visit in Hrun as (outs1 & Hall1 & -> & ->).
  destruct (Forall2_Permutation_l _ _ _ _ Hperm Hall1) as (outs2 & Hp & Hall2).
  exists (mkCommitInfo version (concat outs2.*1)), outs2.*2.
  erewrite (proj2 (commitStores_range_visit version sm2 [] _ _)); [|by exists outs2].
  simpl. split_and!; [done | done | | by rewrite Hp].
  apply concat_Permutation. by rewrite Hp.
Qed.

Lemma CommitInfo_Hash_Permutation (ci1 ci2 : CommitInfo) :
  NoDup (SI_Name <$> StoreInfos ci1) →
  StoreInfos ci1 ≡ₚ StoreInfos ci2 →
  CommitInfo_Hash ci1 = CommitInfo_Hash ci2.
Proof.
  intros Hnd Hperm%hashPairs_Permutation.
  rewrite !CommitInfo_Hash_toMap, !toMap_list_to_map. f_equal.
  apply list_to_map_proper; [|by rewrite !reverse_Permutation].
  by rewrite fmap_reverse, hashPairs_names, reverse_Permutation.
Qed.

(** X20: the commit id does not depend on the order in which the loop of
    [commitStores] ranges over the live stores. Take a well-formed
    multi-store whose [Commit()] returns [id1], and the same stores in any
    other order: there [commitStores] returns too, with the same entries
    in some order, the same stores afterwards and the commit id [id1];
    and a [Commit()] that returns there returns [id1]. *)
Theorem Commit_range_order_independent rs1 rs2 rs1' (id1 : CommitID) :
  wf rs1 →
  stores rs1 ≡ₚ stores rs2 →
  lastCommitID rs2 = lastCommitID rs1 →
  Commit rs1 = Ret (rs1', id1) →
  (∃ ci2 sm2',
     commitStores (Version id1) (stores rs2) = Ret (ci2, sm2') ∧
     stores rs1' ≡ₚ sm2' ∧
     CommitInfo_CommitID ci2 = id1) ∧
  (∀ rs2' id2, Commit rs2 = Ret (rs2', id2) →
     id2 = id1 ∧ stores rs1' ≡ₚ stores rs2').
Proof.
  intros Hwf Hperm Hlast Hc1.
  destruct (Commit_inv _ _ _ Hc1) as (ci1 & bz1 & Hcs1 & _ & _ & Hid1 & _).
  cbv zeta in Hcs1, Hid1.
  destruct (commitStores_spec _ _ _ _ Hcs1) as (Hv1 & Hkeys1 & Hnames1 & _).
  assert (NoDup (SI_Name <$> StoreInfos ci1)) as Hnd.
  { rewrite Hnames1.
    assert (Name <$> (filter participates (stores rs1')).*1
              `sublist_of` Name <$> (stores rs1').*1) as Hsub.
    { do 2 apply fmap_sublist. apply sublist_filter. }
    rewrite Hkeys1 in Hsub.
    exact (sublist_NoDup _ _ (wf_store_names rs1 Hwf) Hsub). }
  destruct (commitStores_Permutation _ _ _ _ _ Hperm Hcs1)
    as (ci2 & sm2' & Hcs2 & Hv2 & Hsis & Hsm).
  assert (CommitInfo_CommitID ci2 = id1) as Hcid.
  { rewrite Hid1. unfold CommitInfo_CommitID.
    by rewrite Hv2, Hv1, (CommitInfo_Hash_Permutation ci1 ci2 Hnd Hsis). }
  assert (Version id1 = int64_add (Version (lastCommitID rs1)) 1) as Hver
    by (by rewrite Hid1).
  split.
  - exists ci2, sm2'. by rewrite Hver.
  - intros rs2' id2 Hc2.
    destruct (Commit_inv _ _ _ Hc2) as (ci2' & bz2 & Hcs2' & _ & _ & Hid2 & _).
    cbv zeta in Hcs2', Hid2. rewrite Hlast, Hcs2 in Hcs2'.
    injection Hcs2' as <- <-. split; [|done].
    rewrite Hid2, <-Hcid. unfold CommitInfo_CommitID.
    by rewrite Hv2, Hv1, Hlast.
Qed.
End RangeOrder.

Section RangeOrderExamples.
Import Demo.

Lemma wf_rsAC0 : wf rsAC0.
Proof.
  apply reachable_wf.
  apply (reach_load
           (mount keyC StoreTypeIAVL (mount keyA StoreTypeIAVL (NewCommitMultiStore ∅)))
           0 rsAC0 None); [|vm_compute; reflexivity].
  apply (reach_mount (mount keyA StoreTypeIAVL (NewCommitMultiStore ∅))
           (Some keyC) StoreTypeIAVL None); [|vm_compute; reflexivity].
  apply (reach_mount (NewCommitMultiStore ∅) (Some keyA) StoreTypeIAVL None);
    [|vm_compute; reflexivity].
  apply reach_new.
Qed.

Lemma Commit_rsAC0 :
  Commit rsAC0 =
  Ret ((run (Commit rsAC0) (rsAC0, zeroCommitID)).1,
       (run (Commit rsAC0) (rsAC0, zeroCommitID)).2).
Proof. vm_compute. reflexivity. Qed.

Lemma Commit_range_order_independent_witness :
  let rs1' := (run (Commit rsAC0) (rsAC0, zeroCommitID)).1 in
  let id1 := (run (Commit rsAC0) (rsAC0, zeroCommitID)).2 in
  (∃ ci2 sm2',
     commitStores (Version id1) (stores rsCA0) = Ret (ci2, sm2') ∧
     stores rs1' ≡ₚ sm2' ∧
     CommitInfo_CommitID ci2 = id1) ∧
  (∀ rs2' id2, Commit rsCA0 = Ret (rs2', id2) →
     id2 = id1 ∧ stores rs1' ≡ₚ stores rs2').
Proof.
  apply (Commit_range_order_independent rsAC0 rsCA0 _ _ wf_rsAC0).
  - symmetry. apply reverse_Permutation.
  - reflexivity.
  - exact Commit_rsAC0.
Defined.
End RangeOrderExamples.

(** ** Pruning and tracing *)

Section Pruning.
Context `{Merkle} `{Codec} `{Protocol} {S : Type} `{!CommitStoreOps S}.
Implicit Types (rs : rootMultiStore S).

Lemma mapGet_fmap {K V} `{EqDecision K} (f : V → V) (k : K) (m : list (K * V)) :
  mapGet k ((fun kv => (kv.1, f kv.2)) <$> m) = f <$> mapGet k m.
Proof.
  induction m as [|[k' v] m IH]; csimpl; [done|]. by case_decide.
Qed.

(** X21: [SetPruning] records the strategy and hands it to every live
    store, and to nothing else: the store under each key and under each
    name is the former one after its own [SetPruning], the keys and their
    order, the database, the mounts and the last commit id are as before,
    and a well-formed multi-store stays well formed. *)
Theorem SetPruning_reaches_live_stores rs (p : PruningStrategy) :
  pruning (SetPruning rs p) = p ∧
  (∀ key, GetCommitStore (SetPruning rs p) key =
          store_SetPruning p <$> GetCommitStore rs key) ∧
  (∀ name, getStoreByName (SetPruning rs p) name =
           store_SetPruning p <$> getStoreByName rs name) ∧
  (stores (SetPruning rs p)).*1 = (stores rs).*1 ∧
  db (SetPruning rs p) = db rs ∧
  storesParams (SetPruning rs p) = storesParams rs ∧
  LastCommitID (SetPruning rs p) = LastCommitID rs ∧
  (wf rs → wf (SetPruning rs p)).
Proof.
  assert ((stores (SetPruning rs p)).*1 = (stores rs).*1) as Hkeys.
  { simpl. rewrite <-list_fmap_compose. by apply list_fmap_ext. }
  split_and!; try done.
  - intros key. apply mapGet_fmap.
  - intros name. unfold getStoreByName. simpl.
    destruct (keysByName rs !! name); [apply mapGet_fmap | done].
  - intros [Hpk Hpn Hsk Hsm Hidx]. split; rewrite ?Hkeys; done.
Qed.
End Pruning.

Section TracingFacts.
Context {W V : Type}.
Implicit Types (t : tracing W V) (tc : option (gmap string V)).

Lemma foldl_insert_union (l : list (string * V)) (ctx : gmap string V) :
  NoDup l.*1 →
  foldl (fun acc kv => <[kv.1 := kv.2]> acc) ctx l = list_to_map l ∪ ctx.
Proof.
  revert ctx. induction l as [|[k v] l IH]; intros ctx; csimpl.
  - intros _. by rewrite (left_id_L ∅ (∪)).
  - intros [Hk Hl]%NoDup_cons. rewrite IH by done.
    rewrite <-insert_union_l. symmetry. apply insert_union_r.
    by apply not_elem_of_list_to_map_1.
Qed.

(** X22: [WithTracingContext] lays the given context over the current
    one: a key of the given context takes the given value and every other
    key keeps its own; a nil current context is replaced by the given one;
    the writer, and so [TracingEnabled], is untouched; and giving the same
    context twice is giving it once. *)
Theorem WithTracingContext_overlay t tc :
  traceWriter (WithTracingContext t tc) = traceWriter t ∧
  TracingEnabled (WithTracingContext t tc) = TracingEnabled t ∧
  (∀ ctx, traceContext t = Some ctx →
     traceContext (WithTracingContext t tc) = Some (default ∅ tc ∪ ctx)) ∧
  (traceContext t = None → traceContext (WithTracingContext t tc) = tc) ∧
  WithTracingContext (WithTracingContext t tc) tc = WithTracingContext t tc.
Proof.
  assert (∀ ctx : gmap string V,
            foldl (fun acc kv => <[kv.1 := kv.2]> acc) ctx
              (map_to_list (default ∅ tc)) = default ∅ tc ∪ ctx) as Hfold.
  { intros ctx. rewrite foldl_insert_union by apply NoDup_fst_map_to_list.
    by rewrite list_to_map_to_list. }
  unfold WithTracingContext, TracingEnabled.
  destruct t as [w [ctx|]]; simpl; split_and!; try done.
  - intros ? [= <-]. by rewrite Hfold.
  - rewrite !Hfold. by rewrite (assoc_L (∪)), (idemp_L (∪)).
  - destruct tc as [m|]; simpl; [|done].
    by rewrite Hfold, (idemp_L (∪)).
Qed.
End TracingFacts.

(** ** The side-chain handlers *)

Section GovHandlers.
Import Gov.
Context `{Protocol} `{Env} `{!Handlers}.

(** X23: the outcome of [handleMsgSideChainSubmitProposal] by precedence.
    The message is not supported after the second fusion fork, and after
    the first one when the side chain's total voting power, read on the
    incoming context, is at most 5,000,000; otherwise a text proposal
    before BEP173 is an invalid proposal type, whether the side chain is
    known or not; otherwise an unknown side chain is an invalid side chain
    id; otherwise the generic handler runs on the prepared context, and
    its result is returned with the side-chain tag appended when it is OK
    and unchanged when it is not. *)
Theorem SubmitProposal_outcome (ctx : Ctx) (keeper : Keeper)
    (msg : MsgSideChainSubmitProposal) :
  let r := handleMsgSideChainSubmitProposal ctx keeper msg in
  let id := SideChainId msg in
  let notSupported :=
    IsUpgrade BCFusionSecondHardFork ||
    (IsUpgrade BCFusionFirstHardFork &&
     LTE (GetSideChainTotalVotingPower keeper ctx id) (NewDecFromInt 5000000)) in
  let badType :=
    bool_decide (ProposalType msg = ProposalTypeText) && negb (IsUpgrade BEP173) in
  (notSupported = true → r = ErrMsgNotSupported_Result "") ∧
  (notSupported = false → badType = true →
     r = ErrInvalidProposalType_Result (codespace keeper) (ProposalType msg)) ∧
  (notSupported = false → badType = false →
     ∀ e, PrepareCtxForSideChain keeper ctx id = Error e →
          r = ErrInvalidSideChainId_Result (codespace keeper) id) ∧
  (notSupported = false → badType = false →
     ∀ ctx', PrepareCtxForSideChain keeper ctx id = OK ctx' →
       let result :=
         handleMsgSubmitProposal ctx' keeper
           (NewMsgSubmitProposal (Title msg) (Description msg) (ProposalType msg)
              (Proposer msg) (InitialDeposit msg) (VotingPeriod msg)) in
       (IsOK result = false → r = result) ∧
       (IsOK result = true →
          r = set_Tags result
                (AppendTag (Result_Tags result) SideChainID (bytes_of_string id)))).
Proof.
  unfold handleMsgSideChainSubmitProposal, submitProposalAfterForkGates, tagSideChain.
  cbv zeta.
  destruct (IsUpgrade BCFusionSecondHardFork); simpl; [by split_and!|].
  destruct (IsUpgrade BCFusionFirstHardFork); simpl.
  - destruct (LTE _ _); simpl; [by split_and!|].
    destruct (bool_decide _ && negb _); simpl; [by split_and!|].
    split_and!; try done.
    + by intros _ _ e ->.
    + intros _ _ ctx' ->. split; by intros ->.
  - destruct (bool_decide _ && negb _); simpl; [by split_and!|].
    split_and!; try done.
    + by intros _ _ e ->.
    + intros _ _ ctx' ->. split; by intros ->.
Qed.

(** X24: [handleMsgSideChainDeposit] and [handleMsgSideChainVote] have no
    fork gate: whatever the upgrades, an unknown side chain is an invalid
    side chain id, and otherwise the generic handler runs on the prepared
    context with the message stripped of its side chain id, and its result
    is returned with the side-chain tag appended when it is OK and
    unchanged when it is not. *)
Theorem Deposit_and_Vote_outcome (ctx : Ctx) (keeper : Keeper)
    (dep : MsgSideChainDeposit) (vote : MsgSideChainVote) :
  (∀ e, PrepareCtxForSideChain keeper ctx (Deposit_SideChainId dep) = Error e →
     handleMsgSideChainDeposit ctx keeper dep =
     ErrInvalidSideChainId_Result (codespace keeper) (Deposit_SideChainId dep)) ∧
  (∀ e, PrepareCtxForSideChain keeper ctx (Vote_SideChainId vote) = Error e →
     handleMsgSideChainVote ctx keeper vote =
     ErrInvalidSideChainId_Result (codespace keeper) (Vote_SideChainId vote)) ∧
  (∀ ctx', PrepareCtxForSideChain keeper ctx (Deposit_SideChainId dep) = OK ctx' →
     let result :=
       handleMsgDeposit ctx' keeper
         (NewMsgDeposit (Depositer dep) (Deposit_ProposalID dep) (Amount dep)) in
     handleMsgSideChainDeposit ctx keeper dep =
     if IsOK result
     then set_Tags result
            (AppendTag (Result_Tags result) SideChainID
               (bytes_of_string (Deposit_SideChainId dep)))
     else result) ∧
  (∀ ctx', PrepareCtxForSideChain keeper ctx (Vote_SideChainId vote) = OK ctx' →
     let result :=
       handleMsgVote ctx' keeper
         (NewMsgVote (Voter vote) (Vote_ProposalID vote) (Option vote)) in
     handleMsgSideChainVote ctx keeper vote =
     if IsOK result
     then set_Tags result
            (AppendTag (Result_Tags result) SideChainID
               (bytes_of_string (Vote_SideChainId vote)))
     else result).
Proof.
  unfold handleMsgSideChainDeposit, handleMsgSideChainVote, tagSideChain.
  split_and!; intros ? Hprep; by rewrite Hprep.
Qed.
End GovHandlers.

(** ** Committing after a load *)

Section LoadThenCommit.
Context `{Merkle} `{Codec} `{Protocol} {S : Type} `{!CommitStoreOps S}.
Context `{!CodecLaws}.
Implicit Types (rs : rootMultiStore S).

Lemma LoadVersion_success_meta rs rs1 (ver : Z) :
  LoadVersion rs ver = Ret (rs1, None) →
  db rs1 = db rs ∧
  if decide (ver = 0) then lastCommitID rs1 = zeroCommitID
  else ∃ ci, getCommitInfo (db rs) ver = OK ci ∧
             lastCommitID rs1 = CommitInfo_CommitID ci.
Proof.
  unfold LoadVersion. case_decide as Hver.
  - destruct (loadVersion0_range rs (storesParams rs) (stores rs))
      as [[st [e|]]|]; simpl; [done | | done].
    by intros [= <-].
  - destruct (getCommitInfo (db rs) ver) as [cInfo|]; [|done].
    destruct (infos_range rs (StoreInfos cInfo) ∅) as [infos|]; simpl; [|done].
    destruct (newStores_range rs infos (storesParams rs) []) as [[ns|]|];
      simpl; [|done..].
    intros [= <-]. split; [done|]. by exists cInfo.
Qed.

(** X25: the version of the commit that follows a successful load is one
    more, in int64, than the version written inside the record that was
    loaded, which is the version asked for only when the record says so; it
    is 1 after [LoadVersion(0)]. That commit moves the "s/latest" pointer to
    its own version and rewrites the record of that version, also when the
    database already holds one, and leaves the record of every other
    version as it was. *)
Theorem Commit_after_LoadVersion rs rs1 rs2 (ver : Z) (id : CommitID) :
  LoadVersion rs ver = Ret (rs1, None) →
  Commit rs1 = Ret (rs2, id) →
  (ver = 0 → Version id = 1) ∧
  (ver ≠ 0 → ∃ ci, getCommitInfo (db rs) ver = OK ci ∧
                   Version id = int64_add (CI_Version ci) 1) ∧
  getLatestVersion (db rs2) = Ret (Version id) ∧
  (∃ ci', getCommitInfo (db rs2) (Version id) = OK ci' ∧ id = CommitInfo_CommitID ci') ∧
  (∀ w, w ≠ Version id → getCommitInfo (db rs2) w = getCommitInfo (db rs) w).
Proof.
  intros [Hdb Hlast]%LoadVersion_success_meta Hc.
  destruct (Commit_persists _ _ _ Hc) as (ci' & Hget & _ & Hid & _).
  destruct (Commit_inv _ _ _ Hc) as (ci0 & bz & _ & _ & Hdb2 & Hid0 & _).
  cbv zeta in Hdb2, Hid0.
  assert (Version id = int64_add (Version (lastCommitID rs1)) 1) as Hver
    by (by rewrite Hid0).
  split_and!.
  - intros Hz. rewrite decide_True in Hlast by done. by rewrite Hver, Hlast.
  - intros Hnz. rewrite decide_False in Hlast by done.
    destruct Hlast as (ci & Hci & Hl). exists ci. by rewrite Hver, Hl.
  - by eapply Commit_latest.
  - by exists ci'.
  - intros w Hw. rewrite Hdb2, getCommitInfo_insert_latest, <-Hver.
    rewrite getCommitInfo_insert_other by done. by rewrite Hdb.
Qed.
End LoadThenCommit.

Section LoadThenCommitExamples.
Import Demo.

Lemma LoadVersion_rsAT2 : LoadVersion rsAT2 1 = Ret (rsAT2L, None).
Proof. vm_compute. reflexivity. Qed.

Lemma Commit_rsAT2L :
  Commit rsAT2L =
  Ret ((run (Commit rsAT2L) (rsAT2L, zeroCommitID)).1,
       (run (Commit rsAT2L) (rsAT2L, zeroCommitID)).2).
Proof. vm_compute. reflexivity. Qed.

Lemma Commit_after_LoadVersion_witness :
  let rs2 := (run (Commit rsAT2L) (rsAT2L, zeroCommitID)).1 in
  let id := (run (Commit rsAT2L) (rsAT2L, zeroCommitID)).2 in
  ((1 : Z) = 0 → Version id = 1) ∧
  ((1 : Z) ≠ 0 → ∃ ci, getCommitInfo (db rsAT2) 1 = OK ci ∧
                       Version id = int64_add (CI_Version ci) 1) ∧
  getLatestVersion (db rs2) = Ret (Version id) ∧
  (∃ ci', getCommitInfo (db rs2) (Version id) = OK ci' ∧ id = CommitInfo_CommitID ci') ∧
  (∀ w, w ≠ Version id → getCommitInfo (db rs2) w = getCommitInfo (db rsAT2) w).
Proof.
  exact (Commit_after_LoadVersion rsAT2 rsAT2L _ 1 _ LoadVersion_rsAT2 Commit_rsAT2L).
Defined.
End LoadThenCommitExamples.
